(** * Stale-while-revalidate cache: the decision engine of [src/index.ts]

    A shallow embedding of [createStaleWhileRevalidateCache] and of the
    async function [staleWhileRevalidate] it returns, together with the
    properties of the engine: which events a call emits, when the producer
    runs, and what is written to storage.

    The async functions are embedded as programs in continuation-passing
    style over the effects the source performs (emitting an event, reading
    and writing the storage, reading the clock, awaiting the producer,
    detaching a promise).  A small runtime interprets them on an explicit
    world. *)

From Stdlib Require Import ZArith Ascii String.
From stdpp Require Import gmap strings list pretty.

Local Open Scope Z_scope.
Local Open Scope string_scope.
Local Open Scope list_scope.

(** ** JavaScript numbers

    Times are integer milliseconds: [Date.now()] is integral and the
    timestamps the engine stores are its decimal rendering.  A number is
    therefore an integer, an infinity, or [NaN]; subtraction and the
    comparisons [>] and [>=] follow IEEE 754 on these (exact for
    magnitudes below 2^53), in particular every comparison with [NaN] is
    false. *)

Inductive Num : Type :=
  | NaN
  | NegInf
  | Fin (z : Z)
  | PosInf.

Definition num_neg (a : Num) : Num :=
  match a with
  | NaN => NaN
  | NegInf => PosInf
  | Fin z => Fin (- z)
  | PosInf => NegInf
  end.

(** [a - b] *)
Definition num_sub (a b : Num) : Num :=
  match a, b with
  | NaN, _ | _, NaN => NaN
  | Fin x, Fin y => Fin (x - y)
  | Fin _, PosInf => NegInf
  | Fin _, NegInf => PosInf
  | PosInf, PosInf => NaN
  | PosInf, _ => PosInf
  | NegInf, NegInf => NaN
  | NegInf, _ => NegInf
  end.

(** [a > b] *)
Definition num_gt (a b : Num) : bool :=
  match a, b with
  | NaN, _ | _, NaN => false
  | Fin x, Fin y => bool_decide (y < x)
  | PosInf, PosInf => false
  | PosInf, _ => true
  | _, NegInf => match a with NegInf => false | _ => true end
  | _, _ => false
  end.

(** [a >= b] *)
Definition num_ge (a b : Num) : bool :=
  match a, b with
  | NaN, _ | _, NaN => false
  | Fin x, Fin y => bool_decide (y <= x)
  | PosInf, _ => true
  | _, NegInf => true
  | _, _ => false
  end.

(** [a < b] and [a <= b], the mirrored comparisons. *)
Definition num_lt (a b : Num) : bool := num_gt b a.
Definition num_le (a b : Num) : bool := num_ge b a.

(** *** [Number(raw)] on what the storage returns ([string | null])

    [Number(null)] is [+0].  A string is trimmed of white space; the empty
    string is [0], an optionally signed run of decimal digits is that
    integer, an optionally signed [Infinity] is that infinity.  Literals
    with a fraction, an exponent or a radix prefix denote numbers outside
    the integer model above and are not told apart here from strings that
    do not parse. *)

Definition is_space (c : ascii) : bool :=
  let n := N_of_ascii c in
  ((9 <=? n)%N && (n <=? 13)%N) || (n =? 32)%N.

Fixpoint skip_spaces (l : list ascii) : list ascii :=
  match l with
  | c :: l' => if is_space c then skip_spaces l' else l
  | [] => []
  end.

Definition trim (s : string) : list ascii :=
  rev (skip_spaces (rev (skip_spaces (list_ascii_of_string s)))).

Definition digit (c : ascii) : option Z :=
  let n := Z.of_N (N_of_ascii c) in
  if bool_decide (48 <= n <= 57) then Some (n - 48) else None.

Fixpoint decimal (acc : Z) (l : list ascii) : option Z :=
  match l with
  | [] => Some acc
  | c :: l' =>
      match digit c with
      | Some d => decimal (10 * acc + d) l'
      | None => None
      end
  end.

Definition unsigned_literal (l : list ascii) : Num :=
  if bool_decide (l = list_ascii_of_string "Infinity") then PosInf
  else match l with
       | [] => NaN
       | _ => match decimal 0 l with Some z => Fin z | None => NaN end
       end.

Definition StringToNumber (s : string) : Num :=
  match trim s with
  | [] => Fin 0
  | c :: l =>
      if bool_decide (c = "+"%char) then unsigned_literal l
      else if bool_decide (c = "-"%char) then num_neg (unsigned_literal l)
      else unsigned_literal (c :: l)
  end.

Definition Number (raw : option string) : Num :=
  match raw with
  | None => Fin 0
  | Some s => StringToNumber s
  end.

(** [Date.now().toString()] *)
Definition toString (now : Z) : string := pretty now.

(** ** JavaScript values and truthiness *)

Inductive JsValue : Type :=
  | VUndefined
  | VNull
  | VBool (b : bool)
  | VNumber (n : Num)
  | VString (s : string)
  | VObject (ref : positive).

(** [if (cachedValue)]: [ToBoolean]. *)
Definition truthy (v : JsValue) : bool :=
  match v with
  | VUndefined | VNull => false
  | VBool b => b
  | VNumber NaN | VNumber (Fin 0) => false
  | VNumber _ => true
  | VString s => negb (bool_decide (s = ""))
  | VObject _ => true
  end.

(** ** The arguments of a call *)

(** What [fn()] does: it throws, or it returns something that [await]
    settles (a plain value or a fulfilled promise both give [Fulfilled]). *)
Inductive Settled : Type :=
  | Fulfilled (result : JsValue)
  | Rejected (error : JsValue).

Inductive Completion : Type :=
  | Throws (error : JsValue)
  | Returns (p : Settled).

(** [fn: () => ReturnValue] *)
Definition Producer : Type := unit -> Completion.

(** [cacheKey: string | (() => string)] *)
Inductive CacheKey : Type :=
  | KeyString (s : string)
  | KeyFunction (f : unit -> string).

(** [isFunction(cacheKey) ? String(cacheKey()) : String(cacheKey)] *)
Definition resolve (cacheKey : CacheKey) : string :=
  match cacheKey with
  | KeyFunction f => f tt
  | KeyString s => s
  end.

Definition time_key (key : string) : string := key +:+ "_time".

(** ** Events: [EmitterEvents] with the payload of each [emit] *)

Inductive Event : Type :=
  | cacheHit (cacheKey : CacheKey) (cachedValue : JsValue)
  | cacheExpired (cacheKey : CacheKey) (cachedAge : Num)
      (cachedTime : option string) (cachedValue : JsValue)
      (maxTimeToLive : Num)
  | cacheMiss (cacheKey : CacheKey) (fn : Producer)
  | invoke (cacheKey : CacheKey) (fn : Producer)
  | revalidate_ev (cacheKey : CacheKey) (fn : Producer)
  | revalidateFailed (cacheKey : CacheKey) (fn : Producer) (error : JsValue).

Definition EmitterEvents (e : Event) : string :=
  match e with
  | cacheHit _ _ => "cacheHit"
  | cacheExpired _ _ _ _ _ => "cacheExpired"
  | cacheMiss _ _ => "cacheMiss"
  | invoke _ _ => "invoke"
  | revalidate_ev _ _ => "revalidate"
  | revalidateFailed _ _ _ => "revalidateFailed"
  end.

(** ** Storage *)

(** Modelled from the spec: the [Config] type of [../types] is not part of
    the sources; the storage is the interface of section 6 of the
    specification, [getItem(key) -> awaitable<string | null>] and
    [setItem(key, value) -> awaitable<void>], neither of which fails.

    [getItem k s] is what an awaited [getItem] resolves with in state [s]
    ([None] for [null]).  [setItem k v s] is the state right after the
    call [storage.setItem(k, v)] has returned its promise: whether the
    write has landed by then is the storage's business. *)
Class Storage (St : Type) : Type := {
  getItem : string -> St -> option string;
  setItem : string -> string -> St -> St;
}.

(** A store that writes during the call, such as a [Map] or
    [localStorage]. *)
#[export] Instance MemoryStorage : Storage (gmap string string) := {
  getItem k m := m !! k;
  setItem k v m := <[k := v]> m;
}.

(** A store behind a network: [setItem] sends the write, which lands when
    the reply arrives, and the promise settles then. *)
Record Remote : Type := mkRemote {
  landed : gmap string string;
  inflight : list (string * string);
}.

#[export] Instance RemoteStorage : Storage Remote := {
  getItem k s := landed s !! k;
  setItem k v s := mkRemote (landed s) (inflight s ++ [(k, v)]);
}.

(** The replies arrive: every write that was sent lands, in order. *)
Definition deliver (s : Remote) : Remote :=
  mkRemote (foldl (fun m kv => <[kv.1 := kv.2]> m) (landed s) (inflight s)) [].

(** ** Programs

    The body of an async function, in continuation-passing style.  Each
    constructor is one thing the source does; [AwaitCall fn k h] is
    [await fn()] with [k] the rest of the function and [h] where a throw
    or a rejection goes. *)

Inductive Prog : Type :=
  | Return (v : JsValue)
  | Throw (error : JsValue)
  | Emit (e : Event) (k : Prog)
  | GetItems (key timeKey : string) (k : option string -> option string -> Prog)
  | SetItem (key value : string) (k : Prog)
  | DateNow (k : Z -> Prog)
  | AwaitCall (fn : Producer) (k : JsValue -> Prog) (h : JsValue -> Prog)
  | Detach (p : Prog) (k : Prog).

(** [try { body } catch (error) { handler }] around a whole body. *)
Fixpoint try_catch (body : Prog) (handler : JsValue -> Prog) : Prog :=
  match body with
  | Return v => Return v
  | Throw error => handler error
  | Emit e k => Emit e (try_catch k handler)
  | GetItems key timeKey k =>
      GetItems key timeKey (fun a b => try_catch (k a b) handler)
  | SetItem key value k => SetItem key value (try_catch k handler)
  | DateNow k => DateNow (fun now => try_catch (k now) handler)
  | AwaitCall fn k h =>
      AwaitCall fn (fun v => try_catch (k v) handler)
                   (fun e => try_catch (h e) handler)
  | Detach p k => Detach p (try_catch k handler)
  end.

(** [promise.catch(handler)] on the promise of an async call. *)
Definition promise_catch (promise : Prog) (handler : JsValue -> Prog) : Prog :=
  try_catch promise handler.

(** ** The world a call runs in *)

Inductive Effect : Type :=
  | Emitted (e : Event)
  | GetItemCall (key : string)
  | SetItemCall (key value : string)
  | FnCall (fn : Producer).

Record World (St : Type) : Type := mkWorld {
  storage : St;
  (** the [n]-th [Date.now()] of the run returns [clock n] *)
  clock : nat -> Z;
  ticks : nat;
  (** what the engine did, oldest first *)
  trace : list Effect;
  (** detached calls suspended at an [await], with what runs on wake-up *)
  suspended : list Prog;
  (** rejections of promises that nobody handles *)
  unhandled : list JsValue;
}.

Arguments mkWorld {St}.
Arguments storage {St}.
Arguments clock {St}.
Arguments ticks {St}.
Arguments trace {St}.
Arguments suspended {St}.
Arguments unhandled {St}.

Inductive Outcome : Type :=
  | Resolved (v : JsValue)
  | Rejects (error : JsValue).

Inductive Started : Type :=
  | Finished (o : Outcome)
  | Suspended (rest : Prog).

Section Runtime.
Context {St : Type} `{!Storage St}.

(** One more line in the log. *)
Definition log (e : Effect) (w : World St) : World St :=
  mkWorld (storage w) (clock w) (ticks w) (trace w ++ [e])
          (suspended w) (unhandled w).

(** Modelled from the spec: [getEmitter] of [./event-emitter] is not part
    of the sources; [emitter.emit(name, payload)] notifies the listeners
    of [name] and returns, whatever they do (section 4.1 of the
    specification). *)
Definition emit (e : Event) (w : World St) : World St := log (Emitted e) w.

(** [Date.now()]: the reading, and the world after it. *)
Definition now (w : World St) : Z := clock w (ticks w).

Definition tick (w : World St) : World St :=
  mkWorld (storage w) (clock w) (S (ticks w)) (trace w)
          (suspended w) (unhandled w).

(** [storage.setItem(key, value)], the promise it returns being dropped. *)
Definition write (key value : string) (w : World St) : World St :=
  mkWorld (setItem key value (storage w)) (clock w) (ticks w)
          (trace w ++ [SetItemCall key value]) (suspended w) (unhandled w).

(** A detached call stops at an [await]; [rest] runs when it wakes up. *)
Definition suspend (rest : Prog) (w : World St) : World St :=
  mkWorld (storage w) (clock w) (ticks w) (trace w)
          (suspended w ++ [rest]) (unhandled w).

(** A promise rejects with [error] and has no handler. *)
Definition report (error : JsValue) (w : World St) : World St :=
  mkWorld (storage w) (clock w) (ticks w) (trace w)
          (suspended w) (unhandled w ++ [error]).

(** What becomes of a promise that is dropped. *)
Definition drop_promise (s : Started * World St) : World St :=
  match s with
  | (Finished (Resolved _), w) => w
  | (Finished (Rejects error), w) => report error w
  | (Suspended rest, w) => suspend rest w
  end.

(** Calling an async function without awaiting it: the body runs up to
    its first [await].  A producer that throws does so during the call;
    otherwise the function is suspended until the producer settles. *)
Fixpoint start (p : Prog) (w : World St) : Started * World St :=
  match p with
  | Return v => (Finished (Resolved v), w)
  | Throw error => (Finished (Rejects error), w)
  | Emit e k => start k (emit e w)
  | GetItems key timeKey k =>
      (Suspended (k (getItem key (storage w)) (getItem timeKey (storage w))),
       log (GetItemCall timeKey) (log (GetItemCall key) w))
  | SetItem key value k => start k (write key value w)
  | DateNow k => start (k (now w)) (tick w)
  | AwaitCall fn k h =>
      match fn tt with
      | Throws error => start (h error) (log (FnCall fn) w)
      | Returns (Fulfilled v) => (Suspended (k v), log (FnCall fn) w)
      | Returns (Rejected error) => (Suspended (h error), log (FnCall fn) w)
      end
  | Detach p' k => start k (drop_promise (start p' w))
  end.

(** Calling an async function and awaiting its promise. *)
Fixpoint run (p : Prog) (w : World St) : Outcome * World St :=
  match p with
  | Return v => (Resolved v, w)
  | Throw error => (Rejects error, w)
  | Emit e k => run k (emit e w)
  | GetItems key timeKey k =>
      run (k (getItem key (storage w)) (getItem timeKey (storage w)))
          (log (GetItemCall timeKey) (log (GetItemCall key) w))
  | SetItem key value k => run k (write key value w)
  | DateNow k => run (k (now w)) (tick w)
  | AwaitCall fn k h =>
      match fn tt with
      | Throws error => run (h error) (log (FnCall fn) w)
      | Returns (Fulfilled v) => run (k v) (log (FnCall fn) w)
      | Returns (Rejected error) => run (h error) (log (FnCall fn) w)
      end
  | Detach p' k => run k (drop_promise (start p' w))
  end.

(** A suspended call wakes up and runs to its end; its promise was
    dropped, so a rejection is nobody's. *)
Definition wake (task : Prog) (w : World St) : World St :=
  match run task w with
  | (Resolved _, w') => w'
  | (Rejects error, w') => report error w'
  end.

(** What happened between two worlds of one run. *)
Definition since (w w' : World St) : list Effect :=
  drop (length (trace w)) (trace w').

(** The calls detached and left suspended between two worlds. *)
Definition spawned (w w' : World St) : list Prog :=
  drop (length (suspended w)) (suspended w').
End Runtime.

(** The events of a log, the [setItem] calls of a log, and the number of
    producer calls of a log. *)
Definition events (l : list Effect) : list Event :=
  omap (fun e => match e with Emitted ev => Some ev | _ => None end) l.

Definition event_names (l : list Effect) : list string :=
  EmitterEvents <$> events l.

Definition writes (l : list Effect) : list (string * string) :=
  omap (fun e => match e with SetItemCall k v => Some (k, v) | _ => None end) l.

Definition calls (l : list Effect) : nat :=
  length (omap (fun e => match e with FnCall fn => Some fn | _ => None end) l).

(** ** The engine *)

(** Modelled from the spec: [parseConfig] of [./helpers] is not part of
    the sources; this is the record it returns, with the fields the engine
    destructures (the storage itself is the [Storage] instance).  The two
    thresholds are any numbers; [serialize] and [deserialize] are the
    codec of section 6 of the specification and do not throw. *)
Record Config : Type := mkConfig {
  minTimeToStale : Num;
  maxTimeToLive : Num;
  serialize : JsValue -> string;
  deserialize : option string -> JsValue;
}.

Section createStaleWhileRevalidateCache.
Variable config : Config.

Section staleWhileRevalidate.
Variable cacheKey : CacheKey.
Variable fn : Producer.

(** Lines 47-64.  [key] and [timeKey] are the constants of lines 44-45,
    captured by the closure.  The two [setItem] calls are statements of
    their own: the promises they return are dropped. *)
Definition revalidate (key timeKey : string) : Prog :=
  try_catch
    (Emit (revalidate_ev cacheKey fn)
    (AwaitCall fn (fun result =>
      SetItem key (serialize config result)
      (DateNow (fun now =>
       SetItem timeKey (toString now)
       (Return result))))
      Throw))
    (fun error =>
      Emit (revalidateFailed cacheKey fn error)
      (Throw error)).

(** Lines 87-101, with [cachedValue] as line 76-85 left it. *)
Definition serve (key timeKey : string) (cachedAge : Num)
    (cachedValue : JsValue) : Prog :=
  if truthy cachedValue then
    Emit (cacheHit cacheKey cachedValue)
    (if num_ge cachedAge (minTimeToStale config) then
       Detach (promise_catch (revalidate key timeKey)
                             (fun _ => Return VUndefined))
       (Return cachedValue)
     else Return cachedValue)
  else
    Emit (cacheMiss cacheKey fn)
    (revalidate key timeKey).

(** Lines 38-102.  [Promise.all] issues the two reads, value first, and
    awaits them both. *)
Definition staleWhileRevalidate : Prog :=
  Emit (invoke cacheKey fn)
  (let key := resolve cacheKey in
   let timeKey := time_key key in
   GetItems key timeKey (fun cachedValue cachedTime =>
   let cachedValue := deserialize config cachedValue in
   DateNow (fun now =>
   let cachedAge := num_sub (Fin now) (Number cachedTime) in
   if num_gt cachedAge (maxTimeToLive config) then
     Emit (cacheExpired cacheKey cachedAge cachedTime cachedValue
                        (maxTimeToLive config))
     (serve key timeKey cachedAge VNull)
   else
     serve key timeKey cachedAge cachedValue))).
End staleWhileRevalidate.
End createStaleWhileRevalidateCache.

(** ** What a call sees: lines 66-85 *)

Section Views.
Context {St : Type} `{!Storage St}.
Variable config : Config.
Variable w : World St.
Variable cacheKey : CacheKey.

Definition cachedTime : option string :=
  getItem (time_key (resolve cacheKey)) (storage w).

Definition cachedValue : JsValue :=
  deserialize config (getItem (resolve cacheKey) (storage w)).

Definition cachedAge : Num :=
  num_sub (Fin (now w)) (Number cachedTime).

(** [cachedAge > maxTimeToLive] *)
Definition expired : bool := num_gt cachedAge (maxTimeToLive config).

(** [cachedAge >= minTimeToStale] *)
Definition stale : bool := num_ge cachedAge (minTimeToStale config).

(** The test of line 87, after line 84. *)
Definition hit : bool := negb expired && truthy cachedValue.

(** The world when line 76 is reached. *)
Definition prelude (fn : Producer) : World St :=
  tick (log (GetItemCall (time_key (resolve cacheKey)))
       (log (GetItemCall (resolve cacheKey))
       (emit (invoke cacheKey fn) w))).
End Views.

(** ** Vocabulary of the statements *)

(** What [await fn()] gives the caller of [fn]. *)
Definition awaited (c : Completion) : Outcome :=
  match c with
  | Returns (Fulfilled result) => Resolved result
  | Throws error | Returns (Rejected error) => Rejects error
  end.

(** The rest of [revalidate] (lines 56-59) once the producer has
    fulfilled with [result]. *)
Definition persist (config : Config) (key timeKey : string)
    (result : JsValue) : Prog :=
  SetItem key (serialize config result)
  (DateNow (fun now =>
   SetItem timeKey (toString now)
   (Return result))).

(** The storage writes and producer calls of a log, in order. *)
Definition ops (l : list Effect) : list Effect :=
  omap (fun e => match e with
                 | SetItemCall _ _ | FnCall _ => Some e
                 | _ => None
                 end) l.

(** The keys of the [getItem] calls of a log, in order. *)
Definition reads (l : list Effect) : list string :=
  omap (fun e => match e with GetItemCall k => Some k | _ => None end) l.

(** How often an event name occurs among the names of a log. *)
Definition occurrences (name : string) (names : list string) : nat :=
  length (List.filter (String.eqb name) names).

Section Schedules.
Context {St : Type} `{!Storage St}.

(** [n] calls one after the other, each awaited. *)
Fixpoint repeatedly (n : nat) (p : Prog) (w : World St) : World St :=
  match n with
  | O => w
  | S n' => repeatedly n' p (run p w).2
  end.

(** Suspended calls wake up one after the other. *)
Definition background (tasks : list Prog) (w : World St) : World St :=
  foldl (fun w' task => wake task w') w tasks.
End Schedules.

(** ** Sample configurations and worlds *)

(** Strings stored as they are; [null] reads as [null]. *)
Definition text : Config := {|
  minTimeToStale := Fin 1000;
  maxTimeToLive := Fin 5000;
  serialize v := match v with VString s => s | _ => "null" end;
  deserialize raw := match raw with Some s => VString s | None => VNull end;
|}.

(** The same without expiry. *)
Definition text_forever : Config := {|
  minTimeToStale := Fin 1000;
  maxTimeToLive := PosInf;
  serialize := serialize text;
  deserialize := deserialize text;
|}.

(** The thresholds the wrong way round. *)
Definition text_inverted : Config := {|
  minTimeToStale := Fin 5000;
  maxTimeToLive := Fin 1000;
  serialize := serialize text;
  deserialize := deserialize text;
|}.

Definition at_start {St : Type} (s : St) (t : Z) : World St := {|
  storage := s;
  clock n := t + Z.of_nat n;
  ticks := 0;
  trace := [];
  suspended := [];
  unhandled := [];
|}.

Definition today : Z := 1700000000000.

Definition entry (value : string) (time : string) : gmap string string :=
  <["user_time" := time]> (<["user" := value]> ∅).

Definition fetch_v2 : Producer := fun _ => Returns (Fulfilled (VString "v2")).
Definition fetch_throws : Producer := fun _ => Throws (VString "boom").
Definition fetch_rejects : Producer :=
  fun _ => Returns (Rejected (VString "boom")).

(** ** Proof steps *)

(** Membership of an event name in an explicit list of names. *)
Ltac among :=
  rewrite ?elem_of_cons, ?elem_of_nil; intuition discriminate.

(** The part of a log added by a run that was evaluated step by step. *)
Ltac since_log :=
  unfold since; simpl; rewrite <- ?app_assoc; simpl;
  rewrite ?drop_app_length, ?drop_all; try reflexivity.

(** * Properties *)

(** ** Numbers *)

Lemma num_le_not_gt (a b : Num) : num_le a b = true -> num_gt a b = false.
Proof.
  unfold num_le.
  destruct a, b; simpl; try done.
  intros H%bool_decide_eq_true. apply bool_decide_eq_false. lia.
Qed.

Lemma num_lt_not_ge (a b : Num) : num_lt a b = true -> num_ge a b = false.
Proof.
  unfold num_lt.
  destruct a, b; simpl; try done.
  intros H%bool_decide_eq_true. apply bool_decide_eq_false. lia.
Qed.

Lemma num_lt_le_trans (a b c : Num) :
  num_lt a b = true -> num_le b c = true -> num_lt a c = true.
Proof.
  unfold num_lt, num_le.
  destruct a, b, c; simpl; try done.
  intros H1%bool_decide_eq_true H2%bool_decide_eq_true.
  apply bool_decide_eq_true. lia.
Qed.

Lemma num_lt_le (a b : Num) : num_lt a b = true -> num_le a b = true.
Proof.
  unfold num_lt, num_le.
  destruct a, b; simpl; try done.
  intros H%bool_decide_eq_true. apply bool_decide_eq_true. lia.
Qed.

Lemma num_sub_nan_r (a : Num) : num_sub a NaN = NaN.
Proof. by destruct a. Qed.

(** ** The log *)

Lemma events_app (l1 l2 : list Effect) :
  events (l1 ++ l2) = events l1 ++ events l2.
Proof. apply omap_app. Qed.

Lemma writes_app (l1 l2 : list Effect) :
  writes (l1 ++ l2) = writes l1 ++ writes l2.
Proof. apply omap_app. Qed.

Lemma calls_app (l1 l2 : list Effect) :
  calls (l1 ++ l2) = (calls l1 + calls l2)%nat.
Proof. unfold calls. by rewrite omap_app, length_app. Qed.

Section RuntimeFacts.
Context {St : Type} `{!Storage St}.
Implicit Types (w : World St) (p : Prog).

Lemma since_app w w' l : trace w' = trace w ++ l -> since w w' = l.
Proof. unfold since. intros ->. apply drop_app_length. Qed.

(** A run only ever appends to the log, and leaves the clock alone. *)
Lemma start_extends p : forall w,
  exists l, trace (start p w).2 = trace w ++ l.
Proof.
  induction p as [v|e|e k IH|key timeKey k IH|key value k IH|k IH
                 |fn k IHk h IHh|p' IHp k IHk]; intros w; simpl.
  - exists []. by rewrite app_nil_r.
  - exists []. by rewrite app_nil_r.
  - destruct (IH (emit e w)) as [l Hl]. rewrite Hl. simpl.
    exists (Emitted e :: l). by rewrite <- app_assoc.
  - exists [GetItemCall key; GetItemCall timeKey]. by rewrite <- app_assoc.
  - destruct (IH (write key value w)) as [l Hl]. rewrite Hl. simpl.
    exists (SetItemCall key value :: l). by rewrite <- app_assoc.
  - destruct (IH (now w) (tick w)) as [l Hl]. rewrite Hl. by exists l.
  - destruct (fn tt) as [e|[v|e]]; simpl.
    + destruct (IHh e (log (FnCall fn) w)) as [l Hl]. rewrite Hl. simpl.
      exists (FnCall fn :: l). by rewrite <- app_assoc.
    + by exists [FnCall fn].
    + by exists [FnCall fn].
  - destruct (IHp w) as [l1 Hl1].
    destruct (IHk (drop_promise (start p' w))) as [l2 Hl2]. rewrite Hl2.
    exists (l1 ++ l2). rewrite app_assoc, <- Hl1.
    by destruct (start p' w) as [[[?|?]|?] ?].
Qed.

Lemma run_extends p : forall w,
  exists l, trace (run p w).2 = trace w ++ l.
Proof.
  induction p as [v|e|e k IH|key timeKey k IH|key value k IH|k IH
                 |fn k IHk h IHh|p' IHp k IHk]; intros w; simpl.
  - exists []. by rewrite app_nil_r.
  - exists []. by rewrite app_nil_r.
  - destruct (IH (emit e w)) as [l Hl]. rewrite Hl. simpl.
    exists (Emitted e :: l). by rewrite <- app_assoc.
  - destruct (IH (getItem key (storage w)) (getItem timeKey (storage w))
                 (log (GetItemCall timeKey) (log (GetItemCall key) w))) as [l Hl].
    rewrite Hl. simpl.
    exists (GetItemCall key :: GetItemCall timeKey :: l). by rewrite <- !app_assoc.
  - destruct (IH (write key value w)) as [l Hl]. rewrite Hl. simpl.
    exists (SetItemCall key value :: l). by rewrite <- app_assoc.
  - destruct (IH (now w) (tick w)) as [l Hl]. rewrite Hl. by exists l.
  - destruct (fn tt) as [e|[v|e]]; simpl.
    + destruct (IHh e (log (FnCall fn) w)) as [l Hl]. rewrite Hl. simpl.
      exists (FnCall fn :: l). by rewrite <- app_assoc.
    + destruct (IHk v (log (FnCall fn) w)) as [l Hl]. rewrite Hl. simpl.
      exists (FnCall fn :: l). by rewrite <- app_assoc.
    + destruct (IHh e (log (FnCall fn) w)) as [l Hl]. rewrite Hl. simpl.
      exists (FnCall fn :: l). by rewrite <- app_assoc.
  - destruct (start_extends p' w) as [l1 Hl1].
    destruct (IHk (drop_promise (start p' w))) as [l2 Hl2]. rewrite Hl2.
    exists (l1 ++ l2). rewrite app_assoc, <- Hl1.
    by destruct (start p' w) as [[[?|?]|?] ?].
Qed.

Lemma since_spec p w : trace (run p w).2 = trace w ++ since w (run p w).2.
Proof.
  destruct (run_extends p w) as [l Hl].
  by rewrite (since_app _ _ _ Hl).
Qed.
End RuntimeFacts.

(** ** The engine, path by path *)

Section EngineFacts.
Context {St : Type} `{!Storage St}.
Variable config : Config.
Variable cacheKey : CacheKey.
Variable fn : Producer.
Implicit Types (w : World St).

Lemma run_revalidate w key timeKey :
  run (revalidate config cacheKey fn key timeKey) w =
  let w1 := log (FnCall fn) (emit (revalidate_ev cacheKey fn) w) in
  match fn tt with
  | Returns (Fulfilled result) =>
      (Resolved result,
       write timeKey (toString (now w))
         (tick (write key (serialize config result) w1)))
  | Throws error | Returns (Rejected error) =>
      (Rejects error, emit (revalidateFailed cacheKey fn error) w1)
  end.
Proof. unfold revalidate. simpl. by destruct (fn tt) as [?|[?|?]]. Qed.

Lemma start_revalidate_caught w key timeKey :
  start (promise_catch (revalidate config cacheKey fn key timeKey)
                       (fun _ => Return VUndefined)) w =
  let w1 := log (FnCall fn) (emit (revalidate_ev cacheKey fn) w) in
  match fn tt with
  | Throws error =>
      (Finished (Resolved VUndefined),
       emit (revalidateFailed cacheKey fn error) w1)
  | Returns (Fulfilled result) =>
      (Suspended (persist config key timeKey result), w1)
  | Returns (Rejected error) =>
      (Suspended (Emit (revalidateFailed cacheKey fn error)
                       (Return VUndefined)), w1)
  end.
Proof.
  unfold promise_catch, revalidate. simpl.
  by destruct (fn tt) as [?|[?|?]].
Qed.

Lemma run_staleWhileRevalidate w :
  run (staleWhileRevalidate config cacheKey fn) w =
  let key := resolve cacheKey in
  let age := cachedAge w cacheKey in
  if expired config w cacheKey then
    run (serve config cacheKey fn key (time_key key) age VNull)
        (emit (cacheExpired cacheKey age (cachedTime w cacheKey)
                         (cachedValue config w cacheKey)
                         (maxTimeToLive config))
             (prelude w cacheKey fn))
  else
    run (serve config cacheKey fn key (time_key key) age
               (cachedValue config w cacheKey))
        (prelude w cacheKey fn).
Proof.
  unfold staleWhileRevalidate, expired, cachedAge, cachedTime, cachedValue.
  simpl. by destruct (num_gt _ _).
Qed.

Lemma serve_falsy key timeKey age v :
  truthy v = false ->
  serve config cacheKey fn key timeKey age v =
  Emit (cacheMiss cacheKey fn) (revalidate config cacheKey fn key timeKey).
Proof. unfold serve. by intros ->. Qed.

(** Lines 99-101 are reached exactly when [hit] is false. *)
Lemma run_miss w :
  hit config w cacheKey = false ->
  run (staleWhileRevalidate config cacheKey fn) w =
  let key := resolve cacheKey in
  run (Emit (cacheMiss cacheKey fn)
            (revalidate config cacheKey fn key (time_key key)))
      (if expired config w cacheKey then
         emit (cacheExpired cacheKey (cachedAge w cacheKey)
                         (cachedTime w cacheKey)
                         (cachedValue config w cacheKey)
                         (maxTimeToLive config))
             (prelude w cacheKey fn)
       else prelude w cacheKey fn).
Proof.
  intros Hhit. rewrite run_staleWhileRevalidate. unfold hit in Hhit.
  cbv zeta. destruct (expired config w cacheKey); simpl in Hhit.
  - by rewrite serve_falsy.
  - by rewrite serve_falsy.
Qed.

Lemma run_hit w :
  hit config w cacheKey = true ->
  run (staleWhileRevalidate config cacheKey fn) w =
  let key := resolve cacheKey in
  let v := cachedValue config w cacheKey in
  let w1 := emit (cacheHit cacheKey v) (prelude w cacheKey fn) in
  if stale config w cacheKey then
    (Resolved v,
     drop_promise
       (start (promise_catch
                 (revalidate config cacheKey fn key (time_key key))
                 (fun _ => Return VUndefined)) w1))
  else (Resolved v, w1).
Proof.
  intros Hhit. rewrite run_staleWhileRevalidate. unfold hit in Hhit.
  apply andb_true_iff in Hhit as [Hexp Hv].
  apply negb_true_iff in Hexp. rewrite Hexp. cbv zeta.
  unfold serve, stale. rewrite Hv. simpl.
  by destruct (num_ge _ _).
Qed.
End EngineFacts.

(** ** What each path leaves behind *)

Section Observed.
Context {St : Type} `{!Storage St}.
Variable config : Config.
Variable cacheKey : CacheKey.
Variable fn : Producer.
Implicit Types (w : World St).

Lemma wake_persist w key timeKey result :
  wake (persist config key timeKey result) w =
  write timeKey (toString (now w))
    (tick (write key (serialize config result) w)).
Proof. reflexivity. Qed.

Lemma wake_failed w error :
  wake (Emit (revalidateFailed cacheKey fn error) (Return VUndefined)) w =
  emit (revalidateFailed cacheKey fn error) w.
Proof. reflexivity. Qed.

(** Lines 99-101: [cacheMiss], then [revalidate()] awaited. *)
Lemma miss_observed w :
  hit config w cacheKey = false ->
  let key := resolve cacheKey in
  let age := cachedAge w cacheKey in
  let r := run (staleWhileRevalidate config cacheKey fn) w in
  r.1 = awaited (fn tt) /\
  events (since w r.2) =
    invoke cacheKey fn ::
    (if expired config w cacheKey
     then [cacheExpired cacheKey age (cachedTime w cacheKey)
             (cachedValue config w cacheKey) (maxTimeToLive config)]
     else []) ++
    cacheMiss cacheKey fn :: revalidate_ev cacheKey fn ::
    match r.1 with
    | Resolved _ => []
    | Rejects error => [revalidateFailed cacheKey fn error]
    end /\
  ops (since w r.2) =
    FnCall fn ::
    match r.1 with
    | Resolved result =>
        [SetItemCall key (serialize config result);
         SetItemCall (time_key key) (toString (clock w (S (ticks w))))]
    | Rejects _ => []
    end /\
  storage r.2 =
    match r.1 with
    | Resolved result =>
        setItem (time_key key) (toString (clock w (S (ticks w))))
          (setItem key (serialize config result) (storage w))
    | Rejects _ => storage w
    end /\
  spawned w r.2 = [] /\ unhandled r.2 = unhandled w.
Proof.
  intros Hhit key age r. subst r.
  rewrite (run_miss _ _ _ _ Hhit). cbv zeta.
  cbn [run]. rewrite run_revalidate. cbv zeta.
  destruct (expired config w cacheKey), (fn tt) as [e|[v|e]]; simpl;
    (split; [reflexivity|]);
    (split; [since_log|]);
    (split; [since_log|]);
    (split; [reflexivity|]);
    (split; [|reflexivity]);
    unfold spawned; simpl; by rewrite drop_all.
Qed.

(** Lines 87-96 without line 93. *)
Lemma fresh_observed w :
  hit config w cacheKey = true ->
  stale config w cacheKey = false ->
  let v := cachedValue config w cacheKey in
  run (staleWhileRevalidate config cacheKey fn) w =
  (Resolved v, emit (cacheHit cacheKey v) (prelude w cacheKey fn)).
Proof.
  intros Hhit Hstale. rewrite (run_hit _ _ _ _ Hhit). cbv zeta.
  by rewrite Hstale.
Qed.

(** Lines 87-96 with line 93. *)
Lemma stale_observed w :
  hit config w cacheKey = true ->
  stale config w cacheKey = true ->
  let key := resolve cacheKey in
  let v := cachedValue config w cacheKey in
  let r := run (staleWhileRevalidate config cacheKey fn) w in
  r.1 = Resolved v /\
  events (since w r.2) =
    invoke cacheKey fn :: cacheHit cacheKey v :: revalidate_ev cacheKey fn ::
    match fn tt with
    | Throws error => [revalidateFailed cacheKey fn error]
    | Returns _ => []
    end /\
  ops (since w r.2) = [FnCall fn] /\
  storage r.2 = storage w /\
  unhandled r.2 = unhandled w /\
  spawned w r.2 =
    match fn tt with
    | Throws _ => []
    | Returns (Fulfilled result) => [persist config key (time_key key) result]
    | Returns (Rejected error) =>
        [Emit (revalidateFailed cacheKey fn error) (Return VUndefined)]
    end.
Proof.
  intros Hhit Hstale key v r. subst r.
  rewrite (run_hit _ _ _ _ Hhit). cbv zeta. rewrite Hstale.
  rewrite start_revalidate_caught. cbv zeta.
  destruct (fn tt) as [e|[res|e]]; simpl;
    (split; [reflexivity|]);
    (split; [since_log|]);
    (split; [since_log|]);
    (split; [reflexivity|]);
    (split; [reflexivity|]);
    unfold spawned; simpl; by rewrite ?drop_all, ?drop_app_length.
Qed.
End Observed.

(** ** Reading a log *)

Lemma ops_app (l1 l2 : list Effect) : ops (l1 ++ l2) = ops l1 ++ ops l2.
Proof. apply omap_app. Qed.

Lemma writes_ops (l : list Effect) : writes (ops l) = writes l.
Proof.
  induction l as [|e l IH]; [done|].
  destruct e; simpl; by rewrite ?IH.
Qed.

Lemma calls_ops (l : list Effect) : calls (ops l) = calls l.
Proof.
  unfold calls. induction l as [|e l IH]; [done|].
  destruct e; simpl; auto.
Qed.

Lemma time_key_length (key : string) :
  String.length (time_key key) = (String.length key + 5)%nat.
Proof.
  unfold time_key. induction key as [|c key IH]; [done|].
  simpl. by rewrite IH.
Qed.

Lemma time_key_ne (key : string) : time_key key <> key.
Proof.
  intros Heq. pose proof (time_key_length key) as Hlen.
  rewrite Heq in Hlen. lia.
Qed.

Section Classification.
Context {St : Type} `{!Storage St}.
Variable config : Config.
Variable cacheKey : CacheKey.
Implicit Types (w : World St).

Lemma expired_hit w :
  expired config w cacheKey = true -> hit config w cacheKey = false.
Proof. unfold hit. by intros ->. Qed.

Lemma falsy_hit w :
  truthy (cachedValue config w cacheKey) = false ->
  hit config w cacheKey = false.
Proof. unfold hit. intros ->. apply andb_false_r. Qed.

Lemma within_ttl_hit w :
  truthy (cachedValue config w cacheKey) = true ->
  num_le (cachedAge w cacheKey) (maxTimeToLive config) = true ->
  hit config w cacheKey = true.
Proof.
  unfold hit, expired. intros -> Hle. by rewrite (num_le_not_gt _ _ Hle).
Qed.

Lemma fresh_hit_not_stale w :
  truthy (cachedValue config w cacheKey) = true ->
  num_lt (cachedAge w cacheKey) (minTimeToStale config) = true ->
  num_le (minTimeToStale config) (maxTimeToLive config) = true ->
  hit config w cacheKey = true /\ stale config w cacheKey = false.
Proof.
  intros Hv Hlt Hle. split.
  - apply within_ttl_hit; [done|].
    apply num_lt_le. by eapply num_lt_le_trans.
  - unfold stale. by apply num_lt_not_ge.
Qed.

(** With no entry and [null] read as a falsy value, line 87 fails. *)
Lemma no_entry_hit w :
  getItem (resolve cacheKey) (storage w) = None ->
  truthy (deserialize config None) = false ->
  hit config w cacheKey = false.
Proof. intros Hk Hd. apply falsy_hit. unfold cachedValue. by rewrite Hk. Qed.
End Classification.

Section Repeated.
Context {St : Type} `{!Storage St}.
Variable config : Config.
Variable cacheKey : CacheKey.
Variable fn : Producer.

(** As long as every call finds the entry fresh, nothing but reads and
    events happens, whatever the number of calls. *)
Lemma repeatedly_fresh (n : nat) : forall w : World St,
  truthy (cachedValue config w cacheKey) = true ->
  num_le (minTimeToStale config) (maxTimeToLive config) = true ->
  (forall i, (i < n)%nat ->
     num_lt (num_sub (Fin (clock w (ticks w + i)))
                     (Number (cachedTime w cacheKey)))
            (minTimeToStale config) = true) ->
  let w' := repeatedly n (staleWhileRevalidate config cacheKey fn) w in
  storage w' = storage w /\ clock w' = clock w /\
  ticks w' = (ticks w + n)%nat /\ suspended w' = suspended w /\
  exists l, trace w' = trace w ++ l /\ ops l = [].
Proof.
  induction n as [|n IH]; intros w Hv Hle Hfresh; cbv zeta; cbn [repeatedly].
  - repeat split; [lia|]. exists []. by rewrite app_nil_r.
  - assert (Hnow : num_lt (cachedAge w cacheKey)
                          (minTimeToStale config) = true).
    { specialize (Hfresh O ltac:(lia)).
      by rewrite Nat.add_0_r in Hfresh. }
    destruct (fresh_hit_not_stale config cacheKey w Hv Hnow Hle)
      as [Hhit Hstale].
    rewrite (fresh_observed config cacheKey fn w Hhit Hstale).
    cbv zeta. cbn [snd].
    set (w1 := emit _ (prelude w cacheKey fn)).
    destruct (IH w1) as (Hs & Hc & Ht & Hsusp & l & Hl & Hops).
    + exact Hv.
    + exact Hle.
    + intros i Hi. specialize (Hfresh (S i) ltac:(lia)).
      by rewrite Nat.add_succ_r in Hfresh.
    + rewrite Hs, Hc, Ht, Hsusp, Hl. simpl.
      repeat split; [lia|].
      eexists. rewrite <- !app_assoc. split; [reflexivity|].
      simpl. exact Hops.
Qed.
End Repeated.

(** * The engine's contract *)

Section Contract.
Context {St : Type} `{!Storage St}.
Variable config : Config.
Variable cacheKey : CacheKey.
Variable fn : Producer.
Implicit Types (w : World St).

(** C1 (as the code has it).  On the miss path, when the producer
    fulfils, the call resolves with the producer's result after both
    [setItem] calls of [revalidate()] have been made, in this order and
    after the producer call: the serialized result under the resolved
    key, then the timestamp string of that moment under the time key.
    The promises of the two calls are dropped, not awaited: the storage
    is in the state in which the second call left it, and whether the
    writes have landed by then is the storage's business. *)
Theorem miss_makes_both_writes_without_awaiting w result :
  hit config w cacheKey = false ->
  fn tt = Returns (Fulfilled result) ->
  let key := resolve cacheKey in
  let stamp := toString (clock w (S (ticks w))) in
  let r := run (staleWhileRevalidate config cacheKey fn) w in
  r.1 = Resolved result /\
  ops (since w r.2) =
    [FnCall fn; SetItemCall key (serialize config result);
     SetItemCall (time_key key) stamp] /\
  storage r.2 =
    setItem (time_key key) stamp
      (setItem key (serialize config result) (storage w)) /\
  spawned w r.2 = [].
Proof.
  intros Hhit Hfn key stamp r.
  destruct (miss_observed config cacheKey fn w Hhit)
    as (Hr & _ & Hops & Hst & Hsp & _).
  fold r in Hr, Hops, Hst, Hsp. rewrite Hfn in Hr. simpl in Hr.
  rewrite Hr in Hops, Hst. by repeat split.
Qed.

(** C2 (as the code has it).  Take a call that finds a truthy stored
    value.  If the stored timestamp is absent, [Number(null)] is [0]
    and the age is the current time, which is compared like any other
    age: when it exceeds [maxTimeToLive] the entry is expired and the
    call takes the miss path, otherwise the call is a hit that resolves
    with the cached value, calling the producer in a detached
    revalidation exactly when the current time is at least
    [minTimeToStale].  If the stored timestamp does not parse, the age
    is [NaN], both comparisons are false, and the call is a plain hit:
    it emits [invoke] and [cacheHit], resolves with the cached value,
    and neither calls the producer nor writes nor detaches anything. *)
Theorem timestamp_absent_or_unparsed w :
  truthy (cachedValue config w cacheKey) = true ->
  let v := cachedValue config w cacheKey in
  let r := run (staleWhileRevalidate config cacheKey fn) w in
  (cachedTime w cacheKey = None ->
     cachedAge w cacheKey = Fin (now w) /\
     (num_gt (Fin (now w)) (maxTimeToLive config) = true ->
        r.1 = awaited (fn tt) /\
        (["invoke"; "cacheExpired"; "cacheMiss"; "revalidate"]
         `prefix_of` event_names (since w r.2)) /\
        spawned w r.2 = []) /\
     (num_gt (Fin (now w)) (maxTimeToLive config) = false ->
        r.1 = Resolved v /\
        (["invoke"; "cacheHit"] `prefix_of` event_names (since w r.2)) /\
        ops (since w r.2) =
          if num_ge (Fin (now w)) (minTimeToStale config)
          then [FnCall fn] else [])) /\
  (Number (cachedTime w cacheKey) = NaN ->
     r.1 = Resolved v /\
     event_names (since w r.2) = ["invoke"; "cacheHit"] /\
     ops (since w r.2) = [] /\
     spawned w r.2 = [] /\
     storage r.2 = storage w).
Proof.
  intros Hv v r. split.
  - intros Htime.
    assert (Hage : cachedAge w cacheKey = Fin (now w)).
    { unfold cachedAge. rewrite Htime. simpl. f_equal. lia. }
    split; [exact Hage|]. split.
    + intros Hgt.
      assert (Hexp : expired config w cacheKey = true)
        by (unfold expired; by rewrite Hage).
      pose proof (expired_hit config cacheKey w Hexp) as Hhit.
      destruct (miss_observed config cacheKey fn w Hhit)
        as (Hr & Hev & _ & _ & Hsp & _).
      fold r in Hr, Hev, Hsp. rewrite Hexp in Hev.
      split; [exact Hr|].
      split; [unfold event_names; rewrite Hev; by eexists|exact Hsp].
    + intros Hgt.
      assert (Hhit : hit config w cacheKey = true).
      { unfold hit, expired. by rewrite Hage, Hgt, Hv. }
      destruct (stale config w cacheKey) eqn:Hstale.
      * destruct (stale_observed config cacheKey fn w Hhit Hstale)
          as (Hr & Hev & Hops & _).
        fold r in Hr, Hev, Hops. unfold stale in Hstale.
        rewrite Hage in Hstale. rewrite Hstale.
        split; [exact Hr|].
        split; [unfold event_names; rewrite Hev; by eexists|exact Hops].
      * subst r. rewrite (fresh_observed config cacheKey fn w Hhit Hstale).
        unfold stale in Hstale. rewrite Hage in Hstale. rewrite Hstale.
        cbv zeta. cbn [fst snd].
        split; [done|].
        split; [unfold event_names; since_log; by eexists|since_log].
  - intros Hnan.
    assert (Hage : cachedAge w cacheKey = NaN).
    { unfold cachedAge. rewrite Hnan. apply num_sub_nan_r. }
    assert (Hhit : hit config w cacheKey = true).
    { unfold hit, expired. by rewrite Hage, Hv. }
    assert (Hstale : stale config w cacheKey = false).
    { unfold stale. by rewrite Hage. }
    subst r. rewrite (fresh_observed config cacheKey fn w Hhit Hstale).
    cbv zeta. cbn [fst snd].
    repeat split; try (unfold event_names; since_log).
    unfold spawned. simpl. apply drop_all.
Qed.

(** C3 (as the code has it).  For a key without an entry (the storage
    returns [null] for the key and for its time key), a deserializer
    that reads [null] as a falsy value and a producer that fulfils, the
    call emits [invoke], then [cacheExpired] exactly when the current
    time exceeds [maxTimeToLive] (the absent timestamp counts as [0]),
    then [cacheMiss] and [revalidate], and nothing else; it resolves
    with the producer's result, having called [setItem] with the
    serialized result under the key and then with the timestamp under
    the time key. *)
Theorem no_entry_is_a_miss w result :
  getItem (resolve cacheKey) (storage w) = None ->
  getItem (time_key (resolve cacheKey)) (storage w) = None ->
  truthy (deserialize config None) = false ->
  fn tt = Returns (Fulfilled result) ->
  let key := resolve cacheKey in
  let stamp := toString (clock w (S (ticks w))) in
  let r := run (staleWhileRevalidate config cacheKey fn) w in
  r.1 = Resolved result /\
  event_names (since w r.2) =
    (if num_gt (Fin (now w)) (maxTimeToLive config)
     then ["invoke"; "cacheExpired"; "cacheMiss"; "revalidate"]
     else ["invoke"; "cacheMiss"; "revalidate"]) /\
  writes (since w r.2) =
    [(key, serialize config result); (time_key key, stamp)] /\
  storage r.2 =
    setItem (time_key key) stamp
      (setItem key (serialize config result) (storage w)).
Proof.
  intros Hk Ht Hd Hfn key stamp r.
  pose proof (no_entry_hit config cacheKey w Hk Hd) as Hhit.
  destruct (miss_observed config cacheKey fn w Hhit)
    as (Hr & Hev & Hops & Hst & _).
  fold r in Hr, Hev, Hops, Hst. rewrite Hfn in Hr. simpl in Hr.
  rewrite Hr in Hev, Hops, Hst.
  assert (Hexp : expired config w cacheKey
                 = num_gt (Fin (now w)) (maxTimeToLive config)).
  { unfold expired, cachedAge, cachedTime. rewrite Ht. simpl.
    by rewrite Z.sub_0_r. }
  split; [exact Hr|].
  split; [unfold event_names; rewrite Hev, Hexp; by destruct (num_gt _ _)|].
  split; [by rewrite <- writes_ops, Hops|exact Hst].
Qed.

(** C4.  A truthy cached value of age [a] with
    [a < minTimeToStale <= maxTimeToLive] is served as it is: the call
    emits [invoke] then [cacheHit] and nothing else, resolves with the
    deserialized cached value, does not call the producer, writes
    nothing and detaches nothing, so the storage is left as it was.
    Hence any number of calls in a row, each finding the entry fresh,
    leave the storage unchanged without a producer call or a write. *)
Theorem fresh_entry_is_served_untouched w :
  truthy (cachedValue config w cacheKey) = true ->
  num_lt (cachedAge w cacheKey) (minTimeToStale config) = true ->
  num_le (minTimeToStale config) (maxTimeToLive config) = true ->
  let r := run (staleWhileRevalidate config cacheKey fn) w in
  (r.1 = Resolved (cachedValue config w cacheKey) /\
   event_names (since w r.2) = ["invoke"; "cacheHit"] /\
   calls (since w r.2) = 0%nat /\
   writes (since w r.2) = [] /\
   spawned w r.2 = [] /\
   storage r.2 = storage w) /\
  forall n,
    (forall i, (i < n)%nat ->
       num_lt (num_sub (Fin (clock w (ticks w + i)))
                       (Number (cachedTime w cacheKey)))
              (minTimeToStale config) = true) ->
    let w' := repeatedly n (staleWhileRevalidate config cacheKey fn) w in
    storage w' = storage w /\
    calls (since w w') = 0%nat /\
    writes (since w w') = [].
Proof.
  intros Hv Hlt Hle r. split.
  - destruct (fresh_hit_not_stale config cacheKey w Hv Hlt Hle)
      as [Hhit Hstale].
    subst r. rewrite (fresh_observed config cacheKey fn w Hhit Hstale).
    cbv zeta. cbn [fst snd].
    repeat split; try (unfold event_names, calls; since_log).
    unfold spawned. simpl. apply drop_all.
  - intros n Hfresh w'.
    destruct (repeatedly_fresh config cacheKey fn n w Hv Hle Hfresh)
      as (Hs & _ & _ & _ & l & Hl & Hops).
    fold w' in Hs, Hl. rewrite (since_app _ _ _ Hl).
    by rewrite <- calls_ops, <- writes_ops, Hops.
Qed.

(** C5.  A truthy cached value of age [a] with
    [minTimeToStale <= a <= maxTimeToLive], both bounds included, is
    served stale: the call emits [invoke] and [cacheHit] and resolves
    with the cached value while the storage is still as it was, the
    revalidation having been detached and not awaited.  The producer is
    called exactly once, by that revalidation; when it fulfils, the
    revalidation wakes up and writes the serialized result under the
    key and then the time of that moment under the time key. *)
Theorem stale_entry_is_served_and_revalidated_behind w w'' :
  truthy (cachedValue config w cacheKey) = true ->
  num_le (minTimeToStale config) (cachedAge w cacheKey) = true ->
  num_le (cachedAge w cacheKey) (maxTimeToLive config) = true ->
  let key := resolve cacheKey in
  let r := run (staleWhileRevalidate config cacheKey fn) w in
  let behind := background (spawned w r.2) w'' in
  r.1 = Resolved (cachedValue config w cacheKey) /\
  (["invoke"; "cacheHit"] `prefix_of` event_names (since w r.2)) /\
  writes (since w r.2) = [] /\
  storage r.2 = storage w /\
  calls (since w r.2 ++ since w'' behind) = 1%nat /\
  forall result, fn tt = Returns (Fulfilled result) ->
    length (spawned w r.2) = 1%nat /\
    since w'' behind =
      [SetItemCall key (serialize config result);
       SetItemCall (time_key key) (toString (now w''))] /\
    storage behind =
      setItem (time_key key) (toString (now w''))
        (setItem key (serialize config result) (storage w'')).
Proof.
  intros Hv Hmin Hmax key r behind.
  pose proof (within_ttl_hit config cacheKey w Hv Hmax) as Hhit.
  destruct (stale_observed config cacheKey fn w Hhit Hmin)
    as (Hr & Hev & Hops & Hst & _ & Hsp).
  fold r in Hr, Hev, Hops, Hst, Hsp. subst behind. rewrite Hsp.
  split; [exact Hr|].
  split; [unfold event_names; rewrite Hev; by eexists|].
  split; [by rewrite <- writes_ops, Hops|].
  split; [exact Hst|].
  split.
  - rewrite calls_app, <- (calls_ops (since w r.2)), Hops.
    destruct (fn tt) as [e|[res|e]]; simpl;
      rewrite ?wake_persist, ?wake_failed; unfold calls; since_log.
  - intros result ->. simpl. rewrite wake_persist.
    repeat split; since_log.
Qed.

(** C6.  A cached value of age [a > maxTimeToLive] is dropped: the call
    emits [invoke], [cacheExpired], [cacheMiss], [revalidate] in that
    order and never [cacheHit], goes on with [null] in place of the
    cached value, and from there does what a call on a key without an
    entry does: it emits [cacheMiss] and awaits [revalidate()], whose
    result is the result of the call. *)
Theorem expired_entry_is_a_miss w :
  expired config w cacheKey = true ->
  let key := resolve cacheKey in
  let age := cachedAge w cacheKey in
  let dropped :=
    emit (cacheExpired cacheKey age (cachedTime w cacheKey)
                    (cachedValue config w cacheKey) (maxTimeToLive config))
        (prelude w cacheKey fn) in
  let r := run (staleWhileRevalidate config cacheKey fn) w in
  (["invoke"; "cacheExpired"; "cacheMiss"; "revalidate"]
     `prefix_of` event_names (since w r.2)) /\
  ("cacheHit" ∉ event_names (since w r.2)) /\
  r = run (serve config cacheKey fn key (time_key key) age VNull) dropped /\
  r = run (Emit (cacheMiss cacheKey fn)
                (revalidate config cacheKey fn key (time_key key))) dropped /\
  r.1 = awaited (fn tt) /\
  forall w0 : World St,
    getItem key (storage w0) = None ->
    getItem (time_key key) (storage w0) = None ->
    truthy (deserialize config None) = false ->
    let r0 := run (staleWhileRevalidate config cacheKey fn) w0 in
    (exists w1, r0 = run (Emit (cacheMiss cacheKey fn)
                   (revalidate config cacheKey fn key (time_key key))) w1) /\
    r0.1 = r.1 /\
    (clock w0 (S (ticks w0)) = clock w (S (ticks w)) ->
     ops (since w0 r0.2) = ops (since w r.2)).
Proof.
  intros Hexp key age dropped r.
  pose proof (expired_hit config cacheKey w Hexp) as Hhit.
  destruct (miss_observed config cacheKey fn w Hhit)
    as (Hr & Hev & Hops & _).
  fold r in Hr, Hev, Hops. rewrite Hexp in Hev.
  split; [unfold event_names; rewrite Hev; by eexists|].
  split.
  { unfold event_names. rewrite Hev. simpl.
    destruct r.1; simpl; among. }
  split.
  { subst r dropped. rewrite run_staleWhileRevalidate. cbv zeta.
    by rewrite Hexp. }
  split.
  { subst r dropped. rewrite (run_miss _ _ _ _ Hhit). cbv zeta.
    by rewrite Hexp. }
  split; [exact Hr|].
  intros w0 Hk Ht Hd r0.
  pose proof (no_entry_hit config cacheKey w0 Hk Hd) as Hhit0.
  destruct (miss_observed config cacheKey fn w0 Hhit0)
    as (Hr0 & _ & Hops0 & _).
  fold r0 in Hr0, Hops0.
  split; [eexists; subst r0; by rewrite (run_miss _ _ _ _ Hhit0)|].
  split; [by rewrite Hr0, Hr|].
  intros Hclock. rewrite Hops0, Hops, Hr0, Hr, Hclock. reflexivity.
Qed.

(** C7.  On the miss path, a producer that throws or rejects with
    [error] makes the call reject with that very [error];
    [revalidateFailed] is emitted with the error attached, as the last
    event; nothing is written and the storage is left as it was. *)
Theorem miss_with_failing_producer_rejects w error :
  hit config w cacheKey = false ->
  fn tt = Throws error \/ fn tt = Returns (Rejected error) ->
  let r := run (staleWhileRevalidate config cacheKey fn) w in
  r.1 = Rejects error /\
  last (events (since w r.2)) = Some (revalidateFailed cacheKey fn error) /\
  writes (since w r.2) = [] /\
  storage r.2 = storage w.
Proof.
  intros Hhit Hfn r.
  destruct (miss_observed config cacheKey fn w Hhit)
    as (Hr & Hev & Hops & Hst & _).
  fold r in Hr, Hev, Hops, Hst.
  assert (Hrej : r.1 = Rejects error).
  { rewrite Hr. by destruct Hfn as [-> | ->]. }
  rewrite Hrej in Hev, Hops, Hst.
  split; [exact Hrej|].
  split; [rewrite Hev; by destruct (expired config w cacheKey)|].
  split; [by rewrite <- writes_ops, Hops|exact Hst].
Qed.

(** C8.  On the stale path, a producer that throws or rejects with
    [error] does not change the answer: the call resolves with the
    cached value; [revalidateFailed] is emitted with the error attached,
    during the call when the producer throws and when the detached
    revalidation wakes up when it rejects; nothing is written; and the
    rejection is caught, so that no unhandled rejection is reported,
    neither by the call nor by the revalidation behind it. *)
Theorem stale_with_failing_producer_resolves w w'' error :
  hit config w cacheKey = true ->
  stale config w cacheKey = true ->
  fn tt = Throws error \/ fn tt = Returns (Rejected error) ->
  let v := cachedValue config w cacheKey in
  let r := run (staleWhileRevalidate config cacheKey fn) w in
  let behind := background (spawned w r.2) w'' in
  r.1 = Resolved v /\
  events (since w r.2 ++ since w'' behind) =
    [invoke cacheKey fn; cacheHit cacheKey v; revalidate_ev cacheKey fn;
     revalidateFailed cacheKey fn error] /\
  writes (since w r.2 ++ since w'' behind) = [] /\
  unhandled r.2 = unhandled w /\
  unhandled behind = unhandled w'' /\
  storage r.2 = storage w /\
  storage behind = storage w''.
Proof.
  intros Hhit Hstale Hfn v r behind.
  destruct (stale_observed config cacheKey fn w Hhit Hstale)
    as (Hr & Hev & Hops & Hst & Hun & Hsp).
  fold r in Hr, Hev, Hops, Hst, Hun, Hsp. subst behind.
  rewrite events_app, writes_app, <- (writes_ops (since w r.2)).
  rewrite Hev, Hops, Hsp.
  destruct Hfn as [-> | ->]; simpl; rewrite ?wake_failed;
    repeat split; try done; since_log.
Qed.

(** C9.  A stored value that deserializes to a falsy value, in an entry
    that is not expired, is handled as an absent one: the call goes on
    as it does with [null], emits [invoke], [cacheMiss], [revalidate]
    and never [cacheHit], and calls the producer once and awaits it
    before it settles, the result of the call being the producer's. *)
Theorem falsy_value_is_a_miss w :
  truthy (cachedValue config w cacheKey) = false ->
  expired config w cacheKey = false ->
  let key := resolve cacheKey in
  let r := run (staleWhileRevalidate config cacheKey fn) w in
  r = run (serve config cacheKey fn key (time_key key)
                 (cachedAge w cacheKey) VNull) (prelude w cacheKey fn) /\
  (["invoke"; "cacheMiss"; "revalidate"]
     `prefix_of` event_names (since w r.2)) /\
  ("cacheHit" ∉ event_names (since w r.2)) /\
  calls (since w r.2) = 1%nat /\
  spawned w r.2 = [] /\
  r.1 = awaited (fn tt).
Proof.
  intros Hv Hexp key r.
  pose proof (falsy_hit config cacheKey w Hv) as Hhit.
  destruct (miss_observed config cacheKey fn w Hhit)
    as (Hr & Hev & Hops & _ & Hsp & _).
  fold r in Hr, Hev, Hops, Hsp. rewrite Hexp in Hev.
  split.
  { subst r. rewrite (run_miss _ _ _ _ Hhit). cbv zeta.
    by rewrite Hexp, serve_falsy. }
  split; [unfold event_names; rewrite Hev; by eexists|].
  split.
  { unfold event_names. rewrite Hev. simpl.
    destruct r.1; simpl; among. }
  split; [rewrite <- calls_ops, Hops; by destruct r.1|].
  split; [exact Hsp|exact Hr].
Qed.

(** C10.  Whatever the world, one call together with the revalidation it
    may leave behind performs, of producer calls and storage writes,
    either nothing, or one producer call that fails and no write, or one
    producer call that fulfils followed by exactly two writes: the
    serialized result under the resolved key, then a timestamp under
    that key followed by [_time].  No other slot is written, no write
    comes before the producer has fulfilled, and [cacheHit] and
    [cacheMiss] are never both emitted. *)
Theorem at_most_two_writes_after_the_producer w w'' :
  let key := resolve cacheKey in
  let r := run (staleWhileRevalidate config cacheKey fn) w in
  let all := since w r.2 ++ since w'' (background (spawned w r.2) w'') in
  (ops all = [] \/
   (ops all = [FnCall fn] /\
    exists error, fn tt = Throws error \/ fn tt = Returns (Rejected error)) \/
   (exists result now,
      fn tt = Returns (Fulfilled result) /\
      ops all = [FnCall fn;
                 SetItemCall key (serialize config result);
                 SetItemCall (key +:+ "_time") (toString now)])) /\
  ~ ("cacheHit" ∈ event_names all /\ "cacheMiss" ∈ event_names all).
Proof.
  intros key r all. subst all.
  rewrite ops_app. unfold event_names. rewrite events_app.
  destruct (hit config w cacheKey) eqn:Hhit;
    [destruct (stale config w cacheKey) eqn:Hstale|].
  - destruct (stale_observed config cacheKey fn w Hhit Hstale)
      as (_ & Hev & Hops & _ & _ & Hsp).
    fold r in Hev, Hops, Hsp. rewrite Hev, Hops, Hsp.
    destruct (fn tt) as [e|[res|e]] eqn:Hfn; simpl;
      rewrite ?wake_persist, ?wake_failed.
    + split; [right; left; split; [since_log|eauto]|].
      replace (since w'' w'') with (@nil Effect) by (unfold since; by rewrite drop_all).
      simpl. among.
    + split; [right; right; exists res, (clock w'' (ticks w'')); split; [done|since_log]|].
      replace (events (since w'' _)) with (@nil Event) by since_log.
      simpl. among.
    + split; [right; left; split; [since_log|eauto]|].
      replace (events (since w'' _))
        with [revalidateFailed cacheKey fn e] by since_log.
      simpl. among.
  - subst r. rewrite (fresh_observed config cacheKey fn w Hhit Hstale).
    cbv zeta. cbn [fst snd].
    replace (spawned w _) with (@nil Prog)
      by (unfold spawned; simpl; by rewrite drop_all).
    simpl.
    replace (since w'' w'') with (@nil Effect) by (unfold since; by rewrite drop_all).
    split; [left; since_log|].
    replace (events (since w _))
      with [invoke cacheKey fn; cacheHit cacheKey (cachedValue config w cacheKey)]
      by since_log.
    simpl. among.
  - destruct (miss_observed config cacheKey fn w Hhit)
      as (Hr & Hev & Hops & _ & Hsp & _).
    fold r in Hr, Hev, Hops, Hsp. rewrite Hev, Hops, Hsp. simpl.
    replace (since w'' w'') with (@nil Effect) by (unfold since; by rewrite drop_all).
    simpl. rewrite !app_nil_r. split.
    + rewrite Hr. destruct (fn tt) as [e|[res|e]]; simpl; eauto 8.
    + destruct (expired config w cacheKey), r.1; simpl;
        among.
Qed.
End Contract.

(** ** Two storages *)

(** With a storage that writes during the call, a miss that resolves has
    stored the value and the timestamp. *)
Lemma memory_miss_is_stored (config : Config) (cacheKey : CacheKey)
    (fn : Producer) (w : World (gmap string string)) (result : JsValue) :
  hit config w cacheKey = false ->
  fn tt = Returns (Fulfilled result) ->
  let key := resolve cacheKey in
  let r := run (staleWhileRevalidate config cacheKey fn) w in
  storage r.2 !! key = Some (serialize config result) /\
  storage r.2 !! time_key key = Some (toString (clock w (S (ticks w)))).
Proof.
  intros Hhit Hfn key r.
  destruct (miss_observed config cacheKey fn w Hhit) as (Hr & _ & _ & Hst & _).
  fold r in Hr, Hst. rewrite Hfn in Hr. simpl in Hr. rewrite Hr in Hst.
  rewrite Hst. simpl. split.
  - rewrite lookup_insert_ne by apply time_key_ne. apply lookup_insert_eq.
  - apply lookup_insert_eq.
Qed.

(** With a storage behind a network the same writes are still in flight,
    and land once delivered. *)
Lemma remote_miss_is_in_flight (config : Config) (cacheKey : CacheKey)
    (fn : Producer) (w : World Remote) (result : JsValue) :
  hit config w cacheKey = false ->
  fn tt = Returns (Fulfilled result) ->
  let key := resolve cacheKey in
  let r := run (staleWhileRevalidate config cacheKey fn) w in
  landed (storage r.2) = landed (storage w) /\
  inflight (storage r.2) =
    inflight (storage w) ++
    [(key, serialize config result);
     (time_key key, toString (clock w (S (ticks w))))].
Proof.
  intros Hhit Hfn key r.
  destruct (miss_observed config cacheKey fn w Hhit) as (Hr & _ & _ & Hst & _).
  fold r in Hr, Hst. rewrite Hfn in Hr. simpl in Hr. rewrite Hr in Hst.
  rewrite Hst. simpl. by rewrite <- app_assoc.
Qed.

(** ** What the no-op [catch] of line 93 is for *)

Lemma uncaught_rejection_is_reported {St : Type} `{!Storage St}
    (config : Config) (cacheKey : CacheKey) (fn : Producer)
    (key timeKey : string) (w w'' : World St) (error : JsValue) :
  fn tt = Returns (Rejected error) ->
  let w1 := drop_promise (start (revalidate config cacheKey fn key timeKey) w) in
  exists task,
    spawned w w1 = [task] /\
    unhandled (wake task w'') = unhandled w'' ++ [error].
Proof.
  intros Hfn w1. subst w1. unfold revalidate. simpl. rewrite Hfn. simpl.
  eexists. split.
  - unfold spawned. simpl. by rewrite drop_app_length.
  - reflexivity.
Qed.

(** * The contract on sample calls *)

(** C1, counterexample.  A first call for ["user"] on an empty storage
    behind a network, no expiry: the call takes the miss path and
    resolves with ["v2"], and at that moment neither the value nor the
    timestamp is stored; both writes are in flight and land later. *)
Lemma miss_settles_with_writes_in_flight :
  let w := at_start (mkRemote ∅ []) today in
  let r := run (staleWhileRevalidate text_forever (KeyString "user") fetch_v2) w in
  hit text_forever w (KeyString "user") = false /\
  r.1 = Resolved (VString "v2") /\
  getItem "user" (storage r.2) = None /\
  getItem "user_time" (storage r.2) = None /\
  inflight (storage r.2) = [("user", "v2"); ("user_time", "1700000000001")] /\
  getItem "user" (deliver (storage r.2)) = Some "v2".
Proof. vm_compute. repeat split. Qed.

(** C1, witness: the same call. *)
Lemma miss_makes_both_writes_witness :
  let w := at_start (mkRemote ∅ []) today in
  let r := run (staleWhileRevalidate text_forever (KeyString "user") fetch_v2) w in
  r.1 = Resolved (VString "v2") /\
  ops (since w r.2) =
    [FnCall fetch_v2; SetItemCall "user" "v2"; SetItemCall "user_time" "1700000000001"].
Proof.
  intros w r.
  destruct (miss_makes_both_writes_without_awaiting text_forever
              (KeyString "user") fetch_v2 w (VString "v2"))
    as (Hr & Hops & _); [reflexivity|reflexivity|].
  split; [exact Hr|exact Hops].
Defined.

(** C2, counterexample.  A stored value ["v1"] without a timestamp, no
    expiry: the call is a hit that returns ["v1"] and detaches the
    revalidation, the stale path.  A stored value ["v1"] whose timestamp
    is ["yesterday"]: the call is a plain hit, the producer is not called
    at all. *)
Lemma timestamp_absent_or_garbled_is_no_miss :
  (let w := at_start (<["user" := "v1"]> ∅ : gmap string string) today in
   let r := run (staleWhileRevalidate text_forever (KeyString "user") fetch_v2) w in
   cachedTime w (KeyString "user") = None /\
   truthy (cachedValue text_forever w (KeyString "user")) = true /\
   r.1 = Resolved (VString "v1") /\
   event_names (since w r.2) = ["invoke"; "cacheHit"; "revalidate"] /\
   length (spawned w r.2) = 1%nat) /\
  (let w := at_start (entry "v1" "yesterday") today in
   let r := run (staleWhileRevalidate text (KeyString "user") fetch_v2) w in
   Number (cachedTime w (KeyString "user")) = NaN /\
   truthy (cachedValue text w (KeyString "user")) = true /\
   r.1 = Resolved (VString "v1") /\
   event_names (since w r.2) = ["invoke"; "cacheHit"] /\
   calls (since w r.2) = 0%nat).
Proof. vm_compute. repeat split. Qed.

(** C2, witness: the entry with the timestamp ["yesterday"]. *)
Lemma timestamp_unparsed_witness :
  let w := at_start (entry "v1" "yesterday") today in
  let r := run (staleWhileRevalidate text (KeyString "user") fetch_v2) w in
  r.1 = Resolved (VString "v1") /\ ops (since w r.2) = [].
Proof.
  intros w r.
  destruct (timestamp_absent_or_unparsed text (KeyString "user") fetch_v2 w)
    as (_ & Hnan); [reflexivity|].
  destruct Hnan as (Hr & _ & Hops & _); [reflexivity|].
  split; [exact Hr|exact Hops].
Defined.

(** C3, counterexample.  A first call for ["user"] on an empty storage
    with [maxTimeToLive = 5000]: the events are [invoke], [cacheExpired],
    [cacheMiss], [revalidate]. *)
Lemma no_entry_emits_cacheExpired :
  let w := at_start (∅ : gmap string string) today in
  let r := run (staleWhileRevalidate text (KeyString "user") fetch_v2) w in
  getItem "user" (storage w) = None /\
  getItem "user_time" (storage w) = None /\
  r.1 = Resolved (VString "v2") /\
  event_names (since w r.2) =
    ["invoke"; "cacheExpired"; "cacheMiss"; "revalidate"] /\
  event_names (since w r.2) <> ["invoke"; "cacheMiss"; "revalidate"].
Proof. vm_compute. repeat split. discriminate. Qed.

(** C3, witness: the same call. *)
Lemma no_entry_is_a_miss_witness :
  let w := at_start (∅ : gmap string string) today in
  let r := run (staleWhileRevalidate text (KeyString "user") fetch_v2) w in
  r.1 = Resolved (VString "v2") /\
  writes (since w r.2) = [("user", "v2"); ("user_time", "1700000000001")].
Proof.
  intros w r.
  destruct (no_entry_is_a_miss text (KeyString "user") fetch_v2 w (VString "v2"))
    as (Hr & _ & Hw & _); [reflexivity..|].
  split; [exact Hr|exact Hw].
Defined.

(** C4, witness: an entry written 500 ms ago, read three times. *)
Lemma fresh_entry_witness :
  let w := at_start (entry "v1" "1699999999500") today in
  let get := staleWhileRevalidate text (KeyString "user") fetch_v2 in
  (run get w).1 = Resolved (VString "v1") /\
  storage (repeatedly 3 get w) = storage w.
Proof.
  intros w get.
  destruct (fresh_entry_is_served_untouched text (KeyString "user") fetch_v2 w)
    as ((Hr & _) & Hn); [reflexivity..|].
  split; [exact Hr|].
  apply (Hn 3%nat). intros i Hi.
  destruct i as [|[|[|i]]]; [reflexivity..|lia].
Defined.

(** C5, witness: the example of the specification, an entry written
    2000 ms ago with [minTimeToStale = 1000] and [maxTimeToLive = 5000]. *)
Lemma stale_entry_witness :
  let w := at_start (entry "v1" "1699999998000") today in
  let r := run (staleWhileRevalidate text (KeyString "user") fetch_v2) w in
  r.1 = Resolved (VString "v1") /\
  since r.2 (background (spawned w r.2) r.2) =
    [SetItemCall "user" "v2"; SetItemCall "user_time" "1700000000001"].
Proof.
  intros w r.
  destruct (stale_entry_is_served_and_revalidated_behind text
              (KeyString "user") fetch_v2 w r.2)
    as (Hr & _ & _ & _ & _ & Hbehind); [reflexivity..|].
  destruct (Hbehind (VString "v2")) as (_ & Hs & _); [reflexivity|].
  split; [exact Hr|exact Hs].
Defined.

(** C6, witness: an entry written 10 s ago. *)
Lemma expired_entry_witness :
  let w := at_start (entry "v1" "1699999990000") today in
  let r := run (staleWhileRevalidate text (KeyString "user") fetch_v2) w in
  r.1 = Resolved (VString "v2").
Proof.
  intros w r.
  destruct (expired_entry_is_a_miss text (KeyString "user") fetch_v2 w)
    as (_ & _ & _ & _ & Hr & _); [reflexivity|].
  exact Hr.
Defined.

(** C7, witness: a first call whose producer throws. *)
Lemma miss_with_failing_producer_witness :
  let w := at_start (∅ : gmap string string) today in
  let r := run (staleWhileRevalidate text (KeyString "user") fetch_throws) w in
  r.1 = Rejects (VString "boom") /\ storage r.2 = ∅.
Proof.
  intros w r.
  destruct (miss_with_failing_producer_rejects text (KeyString "user")
              fetch_throws w (VString "boom"))
    as (Hr & _ & _ & Hst); [reflexivity|by left|].
  split; [exact Hr|exact Hst].
Defined.

(** C8, witness: a stale entry whose producer rejects. *)
Lemma stale_with_failing_producer_witness :
  let w := at_start (entry "v1" "1699999998000") today in
  let r := run (staleWhileRevalidate text (KeyString "user") fetch_rejects) w in
  r.1 = Resolved (VString "v1") /\
  unhandled (background (spawned w r.2) r.2) = [].
Proof.
  intros w r.
  destruct (stale_with_failing_producer_resolves text (KeyString "user")
              fetch_rejects w r.2 (VString "boom"))
    as (Hr & _ & _ & Hun & Hbehind & _); [reflexivity|reflexivity|by right|].
  split; [exact Hr|exact (eq_trans Hbehind Hun)].
Defined.

(** C9, witness: the empty string, stored 500 ms ago. *)
Lemma falsy_value_witness :
  let w := at_start (entry "" "1699999999500") today in
  let r := run (staleWhileRevalidate text (KeyString "user") fetch_v2) w in
  r.1 = Resolved (VString "v2") /\ calls (since w r.2) = 1%nat.
Proof.
  intros w r.
  destruct (falsy_value_is_a_miss text (KeyString "user") fetch_v2 w)
    as (_ & _ & _ & Hc & _ & Hr); [reflexivity|reflexivity|].
  split; [exact Hr|exact Hc].
Defined.

(** * Beyond the contract *)

(** ** The timestamp as text *)

Lemma digit_pretty_N_char (d : N) :
  (d < 10)%N -> digit (pretty_N_char d) = Some (Z.of_N d).
Proof.
  intros Hd.
  assert (d = 0 \/ d = 1 \/ d = 2 \/ d = 3 \/ d = 4 \/ d = 5 \/ d = 6 \/
          d = 7 \/ d = 8 \/ d = 9)%N as Hcases by lia.
  repeat (destruct Hcases as [-> | Hcases]; [reflexivity|]).
  by subst d.
Qed.

Lemma is_space_pretty_N_char (d : N) : is_space (pretty_N_char d) = false.
Proof. unfold pretty_N_char. by repeat case_match. Qed.

(** Reading the digits that [pretty_N_go] puts in front of [s]. *)
Lemma decimal_pretty_N_go (x : N) : forall s,
  decimal 0 (list_ascii_of_string (pretty_N_go x s)) =
  decimal (Z.of_N x) (list_ascii_of_string s).
Proof.
  induction (N.lt_wf_0 x) as [x _ IH]. intros s.
  destruct (decide (x = 0%N)) as [-> | Hx].
  - by rewrite pretty_N_go_0.
  - rewrite pretty_N_go_step by lia.
    rewrite IH by (apply N.div_lt; lia).
    simpl. rewrite digit_pretty_N_char by (apply N.mod_lt; lia).
    f_equal. rewrite (N.div_mod x 10) at 3 by lia. lia.
Qed.

Lemma no_space_pretty_N_go (x : N) : forall s,
  Forall (fun c => is_space c = false) (list_ascii_of_string s) ->
  Forall (fun c => is_space c = false)
         (list_ascii_of_string (pretty_N_go x s)).
Proof.
  induction (N.lt_wf_0 x) as [x _ IH]. intros s Hs.
  destruct (decide (x = 0%N)) as [-> | Hx].
  - by rewrite pretty_N_go_0.
  - rewrite pretty_N_go_step by lia.
    apply IH; [apply N.div_lt; lia|].
    simpl. constructor; [apply is_space_pretty_N_char|done].
Qed.

Lemma skip_spaces_none (l : list ascii) :
  Forall (fun c => is_space c = false) l -> skip_spaces l = l.
Proof. intros [|c l' Hc _]; [done|]. simpl. by rewrite Hc. Qed.

Lemma trim_none (s : string) :
  Forall (fun c => is_space c = false) (list_ascii_of_string s) ->
  trim s = list_ascii_of_string s.
Proof.
  intros Hs. unfold trim. rewrite (skip_spaces_none _ Hs).
  rewrite skip_spaces_none by by apply Forall_rev.
  apply rev_involutive.
Qed.

(** A run of digits that reads as a positive number is a literal. *)
Lemma unsigned_literal_decimal (l : list ascii) (z : Z) :
  0 < z -> decimal 0 l = Some z -> unsigned_literal l = Fin z.
Proof.
  intros Hz Hl. unfold unsigned_literal.
  case_bool_decide as Hinf.
  - rewrite Hinf in Hl. discriminate Hl.
  - destruct l; [simpl in Hl; simplify_eq; lia|]. by rewrite Hl.
Qed.

Lemma StringToNumber_positive (p : positive) :
  StringToNumber (pretty (N.pos p)) = Fin (Z.pos p).
Proof.
  assert (Hgo : pretty (N.pos p) = pretty_N_go (N.pos p) "")
    by (unfold pretty, pretty_N; by case_decide).
  pose proof (decimal_pretty_N_go (N.pos p) "") as Hdec.
  pose proof (no_space_pretty_N_go (N.pos p) "" ltac:(constructor)) as Hsp.
  rewrite <- Hgo in Hdec, Hsp. simpl in Hdec.
  unfold StringToNumber. rewrite (trim_none _ Hsp).
  destruct (list_ascii_of_string (pretty (N.pos p))) as [|c l] eqn:Hl.
  { simpl in Hdec. discriminate Hdec. }
  assert (Hc : is_Some (digit c)).
  { simpl in Hdec. destruct (digit c); [eauto|discriminate Hdec]. }
  repeat case_bool_decide; subst;
    try (destruct Hc as [? Hc]; discriminate Hc).
  by apply unsigned_literal_decimal.
Qed.

Lemma StringToNumber_minus (s : string) (n : Num) :
  Forall (fun c => is_space c = false) (list_ascii_of_string s) ->
  unsigned_literal (list_ascii_of_string s) = n ->
  StringToNumber ("-" +:+ s) = num_neg n.
Proof.
  intros Hs Hn. unfold StringToNumber.
  rewrite trim_none by (simpl; by constructor).
  change (list_ascii_of_string ("-" +:+ s))
    with ("-"%char :: list_ascii_of_string s).
  cbv iota. case_bool_decide; [discriminate|].
  case_bool_decide; [|done]. by rewrite Hn.
Qed.

(** What [toString] writes, [Number] reads. *)
Lemma Number_pretty (t : Z) : Number (Some (toString t)) = Fin t.
Proof.
  unfold Number, toString, pretty, pretty_Z. destruct t as [|p|p].
  - reflexivity.
  - apply StringToNumber_positive.
  - assert (Hgo : pretty (N.pos p) = pretty_N_go (N.pos p) "")
      by (unfold pretty, pretty_N; by case_decide).
    pose proof (no_space_pretty_N_go (N.pos p) "" ltac:(constructor)) as Hsp.
    pose proof (decimal_pretty_N_go (N.pos p) "") as Hdec.
    rewrite <- Hgo in Hsp, Hdec. simpl in Hdec.
    apply (StringToNumber_minus _ (Fin (Z.pos p)) Hsp).
    by apply unsigned_literal_decimal.
Qed.

(** X1.  The timestamp that [revalidate] stores, [Date.now().toString()]
    (line 57), is read back by [Number(cachedTime)] (line 74) as the same
    number, whatever the clock shows; so the age a later call computes
    for it is the time elapsed since. *)
Theorem timestamp_round_trip (t later : Z) :
  Number (Some (toString t)) = Fin t /\
  num_sub (Fin later) (Number (Some (toString t))) = Fin (later - t).
Proof. by rewrite Number_pretty. Qed.

(** ** The whole log of a call *)

Section WholeLog.
Context {St : Type} `{!Storage St}.
Variable config : Config.
Variable cacheKey : CacheKey.
Variable fn : Producer.
Implicit Types (w : World St).

Lemma hit_not_expired w :
  hit config w cacheKey = true ->
  expired config w cacheKey = false /\
  truthy (cachedValue config w cacheKey) = true.
Proof.
  unfold hit. intros [Hexp Hv]%andb_true_iff.
  by apply negb_true_iff in Hexp.
Qed.

(** Everything one call does before it settles, in order. *)
Lemma since_call w :
  let key := resolve cacheKey in
  let v := cachedValue config w cacheKey in
  let r := run (staleWhileRevalidate config cacheKey fn) w in
  since w r.2 =
    [Emitted (invoke cacheKey fn); GetItemCall key;
     GetItemCall (time_key key)] ++
    (if expired config w cacheKey
     then [Emitted (cacheExpired cacheKey (cachedAge w cacheKey)
                      (cachedTime w cacheKey) v (maxTimeToLive config))]
     else []) ++
    (if hit config w cacheKey then
       Emitted (cacheHit cacheKey v) ::
       (if stale config w cacheKey then
          Emitted (revalidate_ev cacheKey fn) :: FnCall fn ::
          match fn tt with
          | Throws error => [Emitted (revalidateFailed cacheKey fn error)]
          | Returns _ => []
          end
        else [])
     else
       Emitted (cacheMiss cacheKey fn) ::
       Emitted (revalidate_ev cacheKey fn) :: FnCall fn ::
       match fn tt with
       | Returns (Fulfilled result) =>
           [SetItemCall key (serialize config result);
            SetItemCall (time_key key) (toString (clock w (S (ticks w))))]
       | Throws error | Returns (Rejected error) =>
           [Emitted (revalidateFailed cacheKey fn error)]
       end).
Proof.
  intros key v r. subst r.
  destruct (hit config w cacheKey) eqn:Hhit.
  - destruct (hit_not_expired w Hhit) as [-> _].
    rewrite (run_hit _ _ _ _ Hhit). cbv zeta.
    destruct (stale config w cacheKey).
    + rewrite start_revalidate_caught. cbv zeta.
      destruct (fn tt) as [e|[res|e]]; since_log.
    + since_log.
  - rewrite (run_miss _ _ _ _ Hhit). cbv zeta. cbn [run].
    rewrite run_revalidate. cbv zeta.
    destruct (expired config w cacheKey), (fn tt) as [e|[res|e]]; since_log.
Qed.

(** The calls a call leaves suspended. *)
Lemma spawned_call w :
  let key := resolve cacheKey in
  let r := run (staleWhileRevalidate config cacheKey fn) w in
  spawned w r.2 =
    if hit config w cacheKey && stale config w cacheKey then
      match fn tt with
      | Throws _ => []
      | Returns (Fulfilled result) => [persist config key (time_key key) result]
      | Returns (Rejected error) =>
          [Emit (revalidateFailed cacheKey fn error) (Return VUndefined)]
      end
    else [].
Proof.
  intros key r.
  destruct (hit config w cacheKey) eqn:Hhit;
    [destruct (stale config w cacheKey) eqn:Hstale|]; simpl.
  - by destruct (stale_observed config cacheKey fn w Hhit Hstale)
      as (_ & _ & _ & _ & _ & Hsp).
  - subst r. rewrite (fresh_observed config cacheKey fn w Hhit Hstale).
    unfold spawned. simpl. apply drop_all.
  - by destruct (miss_observed config cacheKey fn w Hhit)
      as (_ & _ & _ & _ & Hsp & _).
Qed.

(** Everything the revalidation left behind does when it wakes up. *)
Lemma since_background w w'' :
  let key := resolve cacheKey in
  let r := run (staleWhileRevalidate config cacheKey fn) w in
  let behind := background (spawned w r.2) w'' in
  since w'' behind =
    (if hit config w cacheKey && stale config w cacheKey then
       match fn tt with
       | Throws _ => []
       | Returns (Fulfilled result) =>
           [SetItemCall key (serialize config result);
            SetItemCall (time_key key) (toString (now w''))]
       | Returns (Rejected error) =>
           [Emitted (revalidateFailed cacheKey fn error)]
       end
     else []) /\
  unhandled behind = unhandled w'' /\
  storage behind =
    (if hit config w cacheKey && stale config w cacheKey then
       match fn tt with
       | Returns (Fulfilled result) =>
           setItem (time_key key) (toString (now w''))
             (setItem key (serialize config result) (storage w''))
       | _ => storage w''
       end
     else storage w'').
Proof.
  intros key r behind. subst behind. rewrite spawned_call.
  destruct (hit config w cacheKey && stale config w cacheKey);
    [destruct (fn tt) as [e|[res|e]]|]; simpl;
    rewrite ?wake_persist, ?wake_failed; repeat split; since_log.
Qed.
End WholeLog.

(** ** What every call does *)

Section EveryCall.
Context {St : Type} `{!Storage St}.
Variable config : Config.
Variable cacheKey : CacheKey.
Variable fn : Producer.
Implicit Types (w : World St).

Lemma outcome_of_call w :
  (run (staleWhileRevalidate config cacheKey fn) w).1 =
  if hit config w cacheKey
  then Resolved (cachedValue config w cacheKey)
  else awaited (fn tt).
Proof.
  destruct (hit config w cacheKey) eqn:Hhit.
  - rewrite (run_hit _ _ _ _ Hhit). cbv zeta.
    by destruct (stale config w cacheKey).
  - by destruct (miss_observed config cacheKey fn w Hhit) as (Hr & _).
Qed.


(** X3.  A value a call resolves with is either the cached value, which
    is then truthy and not expired, or, on the miss path, the value the
    producer fulfilled with; a falsy cached value is never handed out. *)
Theorem resolution_is_cached_or_produced w v :
  (run (staleWhileRevalidate config cacheKey fn) w).1 = Resolved v ->
  (hit config w cacheKey = true /\ v = cachedValue config w cacheKey /\
   truthy v = true /\ expired config w cacheKey = false) \/
  (hit config w cacheKey = false /\ fn tt = Returns (Fulfilled v)).
Proof.
  rewrite outcome_of_call.
  destruct (hit config w cacheKey) eqn:Hhit.
  - intros [= <-]. left. destruct (hit_not_expired config cacheKey w Hhit).
    by repeat split.
  - intros Hres. right. split; [done|].
    destruct (fn tt) as [e|[v'|e]]; simpl in Hres; by simplify_eq.
Qed.


(** X5.  A call reads the storage exactly twice, first the value under
    the resolved key and then the timestamp under the time key, whatever
    path it takes; the revalidation it leaves behind reads nothing. *)
Theorem two_reads_value_then_time w w'' :
  let key := resolve cacheKey in
  let r := run (staleWhileRevalidate config cacheKey fn) w in
  reads (since w r.2) = [key; time_key key] /\
  reads (since w'' (background (spawned w r.2) w'')) = [].
Proof.
  intros key r. subst r. split.
  - rewrite since_call.
    by destruct (expired config w cacheKey), (hit config w cacheKey),
      (stale config w cacheKey), (fn tt) as [e|[v|e]].
  - destruct (since_background config cacheKey fn w w'') as (-> & _).
    by destruct (hit config w cacheKey && stale config w cacheKey),
      (fn tt) as [e|[v|e]].
Qed.

(** X6.  Over a call and the revalidation it leaves behind, [revalidate]
    is emitted once per producer call, of which there is at most one,
    and [revalidateFailed] is emitted once exactly when that producer
    call throws or rejects: no failure goes unreported and no failure is
    reported that did not happen. *)
Theorem revalidation_events_match_the_producer w w'' :
  let r := run (staleWhileRevalidate config cacheKey fn) w in
  let all := since w r.2 ++ since w'' (background (spawned w r.2) w'') in
  (calls all <= 1)%nat /\
  occurrences "revalidate" (event_names all) = calls all /\
  occurrences "revalidateFailed" (event_names all) =
    match fn tt with
    | Returns (Fulfilled _) => 0%nat
    | Throws _ | Returns (Rejected _) => calls all
    end.
Proof.
  intros r all. subst all r. rewrite since_call.
  destruct (since_background config cacheKey fn w w'') as (-> & _).
  destruct (expired config w cacheKey), (hit config w cacheKey),
    (stale config w cacheKey), (fn tt) as [e|[v|e]];
    repeat split; try reflexivity; unfold calls; simpl; lia.
Qed.


Lemma inverted_thresholds_not_stale w :
  num_lt (maxTimeToLive config) (minTimeToStale config) = true ->
  hit config w cacheKey = true ->
  stale config w cacheKey = false.
Proof.
  intros Hinv Hhit. destruct (hit_not_expired config cacheKey w Hhit)
    as [Hexp _].
  unfold expired in Hexp. unfold stale. unfold num_lt in Hinv.
  destruct (cachedAge w cacheKey), (minTimeToStale config),
    (maxTimeToLive config); simpl in *; try done.
  apply bool_decide_eq_true in Hinv. apply bool_decide_eq_false in Hexp.
  apply bool_decide_eq_false. lia.
Qed.

(** X8.  With [maxTimeToLive < minTimeToStale] there is no stale window:
    no call ever detaches a revalidation, a hit never calls the producer,
    and every producer call is awaited by the call that made it. *)
Theorem inverted_thresholds_never_revalidate_behind w :
  num_lt (maxTimeToLive config) (minTimeToStale config) = true ->
  let r := run (staleWhileRevalidate config cacheKey fn) w in
  spawned w r.2 = [] /\
  calls (since w r.2) = (if hit config w cacheKey then 0 else 1)%nat.
Proof.
  intros Hinv r. subst r.
  rewrite spawned_call, since_call.
  destruct (hit config w cacheKey) eqn:Hhit.
  - rewrite (inverted_thresholds_not_stale w Hinv Hhit).
    destruct (hit_not_expired config cacheKey w Hhit) as [-> _].
    by split.
  - split; [done|].
    by destruct (expired config w cacheKey), (fn tt) as [e|[v|e]].
Qed.
End EveryCall.

(** ** From one call to the next *)

Section Stored.
Variable config : Config.
Variable cacheKey : CacheKey.
Implicit Types (w : World (gmap string string)).

(** What a call sees of an entry that a revalidation has written. *)
Lemma written_entry_views w (s0 : gmap string string) result t :
  let key := resolve cacheKey in
  storage w = setItem (time_key key) (toString t)
                (setItem key (serialize config result) s0) ->
  deserialize config (Some (serialize config result)) = result ->
  cachedValue config w cacheKey = result /\
  cachedAge w cacheKey = Fin (now w - t).
Proof.
  intros key Hst Hcodec. unfold cachedAge, cachedTime, cachedValue.
  rewrite Hst. simpl. split.
  - rewrite lookup_insert_ne by apply time_key_ne.
    by rewrite lookup_insert_eq.
  - by rewrite lookup_insert_eq, Number_pretty.
Qed.

Lemma written_entry_is_served w (s0 : gmap string string) fn result t :
  let key := resolve cacheKey in
  storage w = setItem (time_key key) (toString t)
                (setItem key (serialize config result) s0) ->
  deserialize config (Some (serialize config result)) = result ->
  truthy result = true ->
  num_lt (Fin (now w - t)) (minTimeToStale config) = true ->
  num_le (minTimeToStale config) (maxTimeToLive config) = true ->
  let r := run (staleWhileRevalidate config cacheKey fn) w in
  r.1 = Resolved result /\
  calls (since w r.2) = 0%nat /\
  storage r.2 = storage w.
Proof.
  intros key Hst Hcodec Hv Hlt Hle r.
  destruct (written_entry_views w s0 result t Hst Hcodec) as [Hval Hage].
  rewrite <- Hval in Hv. rewrite <- Hage in Hlt.
  destruct (fresh_hit_not_stale config cacheKey w Hv Hlt Hle)
    as [Hhit Hstale].
  subst r. rewrite (fresh_observed config cacheKey fn w Hhit Hstale).
  cbv zeta. cbn [fst snd]. rewrite Hval.
  repeat split. unfold calls. since_log.
Qed.

(** X9.  The cache caches: after a miss whose producer fulfilled with a
    truthy [result] that the codec round-trips, on a storage that writes
    during the call, a later call that finds the storage as the first
    left it, less than [minTimeToStale] after the timestamp the first
    stored, resolves with [result] without calling its producer, and
    writes nothing. *)
Theorem miss_then_fresh_hit w w2 fn fn' result :
  hit config w cacheKey = false ->
  fn tt = Returns (Fulfilled result) ->
  deserialize config (Some (serialize config result)) = result ->
  truthy result = true ->
  num_le (minTimeToStale config) (maxTimeToLive config) = true ->
  let r := run (staleWhileRevalidate config cacheKey fn) w in
  storage w2 = storage r.2 ->
  num_lt (Fin (now w2 - clock w (S (ticks w))))
         (minTimeToStale config) = true ->
  let r2 := run (staleWhileRevalidate config cacheKey fn') w2 in
  r2.1 = Resolved result /\
  calls (since w2 r2.2) = 0%nat /\
  storage r2.2 = storage w2.
Proof.
  intros Hhit Hfn Hcodec Hv Hle r Hst Hlt.
  destruct (miss_observed config cacheKey fn w Hhit)
    as (Hr & _ & _ & Hst1 & _).
  fold r in Hr, Hst1. rewrite Hfn in Hr. simpl in Hr.
  rewrite Hr in Hst1. rewrite Hst1 in Hst.
  by apply (written_entry_is_served w2 (storage w) fn' result _ Hst).
Qed.

(** X10.  A stale hit is refreshed behind the caller's back: the call
    resolves with the old value, and once the revalidation, whose
    producer fulfilled with a truthy [result] that the codec round-trips,
    has woken up on a storage that writes during the call, a later call
    less than [minTimeToStale] after that moment resolves with [result]
    without calling its producer. *)
Theorem stale_then_fresh_hit w w'' w3 fn fn' result :
  hit config w cacheKey = true ->
  stale config w cacheKey = true ->
  fn tt = Returns (Fulfilled result) ->
  deserialize config (Some (serialize config result)) = result ->
  truthy result = true ->
  num_le (minTimeToStale config) (maxTimeToLive config) = true ->
  let r := run (staleWhileRevalidate config cacheKey fn) w in
  storage w3 = storage (background (spawned w r.2) w'') ->
  num_lt (Fin (now w3 - now w'')) (minTimeToStale config) = true ->
  let r3 := run (staleWhileRevalidate config cacheKey fn') w3 in
  r.1 = Resolved (cachedValue config w cacheKey) /\
  r3.1 = Resolved result /\
  calls (since w3 r3.2) = 0%nat.
Proof.
  intros Hhit Hstale Hfn Hcodec Hv Hle r Hst Hlt r3.
  destruct (stale_observed config cacheKey fn w Hhit Hstale) as (Hr & _).
  split; [exact Hr|].
  destruct (since_background config cacheKey fn w w'') as (_ & _ & Hbehind).
  fold r in Hbehind. rewrite Hhit, Hstale, Hfn in Hbehind. simpl in Hbehind.
  rewrite Hbehind in Hst.
  destruct (written_entry_is_served w3 (storage w'') fn' result _
              Hst Hcodec Hv Hlt Hle) as (Hr3 & Hc3 & _).
  by split.
Qed.

(** X11.  The time key of one key is the value key of another: a miss for
    a key that reads as another key followed by [_time] stores its
    serialized result where the engine looks for the timestamp of that
    other key. *)
Theorem time_key_of_one_is_key_of_another w (cacheKey' : CacheKey) fn result :
  resolve cacheKey' = time_key (resolve cacheKey) ->
  hit config w cacheKey' = false ->
  fn tt = Returns (Fulfilled result) ->
  let r := run (staleWhileRevalidate config cacheKey' fn) w in
  cachedTime r.2 cacheKey = Some (serialize config result).
Proof.
  intros Hkey Hhit Hfn r.
  destruct (miss_observed config cacheKey' fn w Hhit)
    as (Hr & _ & _ & Hst & _).
  fold r in Hr, Hst. rewrite Hfn in Hr. simpl in Hr. rewrite Hr in Hst.
  unfold cachedTime. rewrite Hst, Hkey. simpl.
  rewrite lookup_insert_ne by apply time_key_ne.
  apply lookup_insert_eq.
Qed.

(** X12.  On a storage that writes during the call, a call and the
    revalidation it leaves behind change no entry but the two of their
    key: every other key reads as before. *)
Theorem other_entries_are_untouched w w'' fn (other : string) :
  other <> resolve cacheKey ->
  other <> time_key (resolve cacheKey) ->
  let r := run (staleWhileRevalidate config cacheKey fn) w in
  storage r.2 !! other = storage w !! other /\
  storage (background (spawned w r.2) w'') !! other = storage w'' !! other.
Proof.
  intros Hk Ht r. subst r. split.
  - destruct (hit config w cacheKey) eqn:Hhit;
      [destruct (stale config w cacheKey) eqn:Hstale|].
    + by destruct (stale_observed config cacheKey fn w Hhit Hstale)
        as (_ & _ & _ & -> & _).
    + by rewrite (fresh_observed config cacheKey fn w Hhit Hstale).
    + destruct (miss_observed config cacheKey fn w Hhit)
        as (_ & _ & _ & -> & _).
      destruct (run _ w).1; [|done]. simpl.
      by rewrite !lookup_insert_ne.
  - destruct (since_background config cacheKey fn w w'') as (_ & _ & ->).
    destruct (hit config w cacheKey && stale config w cacheKey),
      (fn tt) as [e|[v|e]]; try done.
    simpl. by rewrite !lookup_insert_ne.
Qed.
End Stored.

Section NotDeduplicated.
Context {St : Type} `{!Storage St}.
Variable config : Config.
Variable cacheKey : CacheKey.
Variable fn : Producer.
Implicit Types (w : World St).

(** One stale hit, as the next call finds the world. *)
Lemma stale_step w :
  hit config w cacheKey = true ->
  stale config w cacheKey = true ->
  let r := run (staleWhileRevalidate config cacheKey fn) w in
  storage r.2 = storage w /\ clock r.2 = clock w /\
  ticks r.2 = S (ticks w) /\
  (exists l, trace r.2 = trace w ++ l /\ ops l = [FnCall fn]) /\
  (exists sp, suspended r.2 = suspended w ++ sp /\
     length sp = match fn tt with Throws _ => 0 | Returns _ => 1 end%nat).
Proof.
  intros Hhit Hstale r. subst r.
  rewrite (run_hit _ _ _ _ Hhit). cbv zeta. rewrite Hstale.
  rewrite start_revalidate_caught. cbv zeta.
  destruct (fn tt) as [e|[v|e]]; simpl; repeat split;
    try (eexists; rewrite <- ?app_assoc; split; [reflexivity|reflexivity]).
  exists []. by rewrite app_nil_r.
Qed.

Lemma repeatedly_stale (n : nat) : forall w,
  truthy (cachedValue config w cacheKey) = true ->
  (forall i, (i < n)%nat ->
     let age := num_sub (Fin (clock w (ticks w + i)))
                        (Number (cachedTime w cacheKey)) in
     num_le (minTimeToStale config) age = true /\
     num_le age (maxTimeToLive config) = true) ->
  let w' := repeatedly n (staleWhileRevalidate config cacheKey fn) w in
  storage w' = storage w /\ clock w' = clock w /\
  ticks w' = (ticks w + n)%nat /\
  (exists l, trace w' = trace w ++ l /\ ops l = replicate n (FnCall fn)) /\
  (exists sp, suspended w' = suspended w ++ sp /\
     length sp = match fn tt with Throws _ => 0 | Returns _ => n end%nat).
Proof.
  induction n as [|n IH]; intros w Hv Hstale; cbv zeta; cbn [repeatedly].
  - repeat split; [lia|exists []; by rewrite app_nil_r|].
    exists []. rewrite app_nil_r. by destruct (fn tt).
  - destruct (Hstale O ltac:(lia)) as [Hmin Hmax].
    rewrite Nat.add_0_r in Hmin, Hmax.
    pose proof (within_ttl_hit config cacheKey w Hv Hmax) as Hhit.
    destruct (stale_step w Hhit Hmin)
      as (Hs & Hc & Ht & (l & Hl & Hops) & (sp & Hsp & Hlen)).
    set (w1 := (run (staleWhileRevalidate config cacheKey fn) w).2) in *.
    assert (Hv1 : truthy (cachedValue config w1 cacheKey) = true)
      by (unfold cachedValue; by rewrite Hs).
    destruct (IH w1 Hv1)
      as (Hs' & Hc' & Ht' & (l' & Hl' & Hops') & (sp' & Hsp' & Hlen')).
    { intros i Hi. unfold cachedTime. rewrite Hs, Hc, Ht.
      specialize (Hstale (S i) ltac:(lia)).
      by rewrite Nat.add_succ_r in Hstale. }
    rewrite Hs', Hc', Ht', Hl', Hsp', Hs, Hc, Ht, Hl, Hsp.
    repeat split; [lia| |].
    + exists (l ++ l'). rewrite app_assoc. split; [done|].
      by rewrite ops_app, Hops, Hops'.
    + exists (sp ++ sp'). rewrite app_assoc. split; [done|].
      rewrite length_app, Hlen, Hlen'. by destruct (fn tt).
Qed.

(** X13.  Revalidations are not deduplicated: [n] calls in a row that each
    find the same truthy entry at an age within
    [minTimeToStale .. maxTimeToLive], none of the revalidations having
    woken up yet, call the producer [n] times and write nothing; when the
    producer returns, [n] revalidations are left suspended. *)
Theorem stale_calls_each_call_the_producer (n : nat) w :
  truthy (cachedValue config w cacheKey) = true ->
  (forall i, (i < n)%nat ->
     let age := num_sub (Fin (clock w (ticks w + i)))
                        (Number (cachedTime w cacheKey)) in
     num_le (minTimeToStale config) age = true /\
     num_le age (maxTimeToLive config) = true) ->
  let w' := repeatedly n (staleWhileRevalidate config cacheKey fn) w in
  calls (since w w') = n /\
  writes (since w w') = [] /\
  storage w' = storage w /\
  length (spawned w w') = match fn tt with Throws _ => 0 | Returns _ => n end%nat.
Proof.
  intros Hv Hstale w'.
  destruct (repeatedly_stale n w Hv Hstale)
    as (Hs & _ & _ & (l & Hl & Hops) & (sp & Hsp & Hlen)).
  fold w' in Hs, Hl, Hsp. rewrite (since_app _ _ _ Hl).
  rewrite <- calls_ops, <- writes_ops, Hops.
  unfold spawned. rewrite Hsp, drop_app_length.
  repeat split; try done.
  - clear. induction n as [|n IH]; [done|].
    change (calls (replicate (S n) (FnCall fn)))
      with (S (calls (replicate n (FnCall fn)))).
    by rewrite IH.
  - clear. by induction n as [|n IH].
Qed.
End NotDeduplicated.

(** ** Sample calls *)


(** X3, witness: an entry written 2000 ms ago is handed out. *)
Lemma resolution_is_cached_or_produced_witness :
  let w := at_start (entry "v1" "1699999998000") today in
  (hit text w (KeyString "user") = true /\
   VString "v1" = cachedValue text w (KeyString "user") /\
   truthy (VString "v1") = true /\
   expired text w (KeyString "user") = false) \/
  (hit text w (KeyString "user") = false /\
   fetch_v2 tt = Returns (Fulfilled (VString "v1"))).
Proof.
  intros w.
  apply (resolution_is_cached_or_produced text (KeyString "user") fetch_v2 w
           (VString "v1")).
  reflexivity.
Defined.

(** X8, witness: [minTimeToStale = 5000] above [maxTimeToLive = 1000],
    an entry written 500 ms ago. *)
Lemma inverted_thresholds_witness :
  let w := at_start (entry "v1" "1699999999500") today in
  let r := run (staleWhileRevalidate text_inverted (KeyString "user") fetch_v2) w in
  spawned w r.2 = [] /\ calls (since w r.2) = 0%nat.
Proof.
  intros w r.
  exact (inverted_thresholds_never_revalidate_behind text_inverted
           (KeyString "user") fetch_v2 w eq_refl).
Defined.

(** X9, witness: a first call, and a second one right after it whose
    producer would throw. *)
Lemma miss_then_fresh_hit_witness :
  let w := at_start (∅ : gmap string string) today in
  let r := run (staleWhileRevalidate text (KeyString "user") fetch_v2) w in
  (run (staleWhileRevalidate text (KeyString "user") fetch_throws) r.2).1
    = Resolved (VString "v2").
Proof.
  intros w r.
  destruct (miss_then_fresh_hit text (KeyString "user") w r.2 fetch_v2
              fetch_throws (VString "v2")) as (Hr & _); [reflexivity..|].
  exact Hr.
Defined.

(** X10, witness: an entry written 2000 ms ago, refreshed behind the
    call, then read again. *)
Lemma stale_then_fresh_hit_witness :
  let w := at_start (entry "v1" "1699999998000") today in
  let r := run (staleWhileRevalidate text (KeyString "user") fetch_v2) w in
  let w3 := background (spawned w r.2) r.2 in
  r.1 = Resolved (VString "v1") /\
  (run (staleWhileRevalidate text (KeyString "user") fetch_throws) w3).1
    = Resolved (VString "v2").
Proof.
  intros w r w3.
  destruct (stale_then_fresh_hit text (KeyString "user") w r.2 w3 fetch_v2
              fetch_throws (VString "v2")) as (Hr & Hr3 & _);
    [reflexivity..|].
  split; [exact Hr|exact Hr3].
Defined.

(** X11, witness: caching under ["user_time"] sets the timestamp of
    ["user"]. *)
Lemma time_key_of_one_is_key_of_another_witness :
  let w := at_start (∅ : gmap string string) today in
  let r := run (staleWhileRevalidate text (KeyString "user_time") fetch_v2) w in
  cachedTime r.2 (KeyString "user") = Some "v2".
Proof.
  intros w r.
  apply (time_key_of_one_is_key_of_another text (KeyString "user") w
           (KeyString "user_time") fetch_v2 (VString "v2")); reflexivity.
Defined.

(** X12, witness: a first call for ["user"] beside an entry ["session"]. *)
Lemma other_entries_are_untouched_witness :
  let w := at_start (<["session" := "s1"]> ∅ : gmap string string) today in
  let r := run (staleWhileRevalidate text (KeyString "user") fetch_v2) w in
  storage r.2 !! "session" = Some "s1".
Proof.
  intros w r.
  destruct (other_entries_are_untouched text (KeyString "user") w w fetch_v2
              "session") as (Hr & _); [discriminate..|].
  exact Hr.
Defined.

(** X13, witness: two calls in a row on an entry written 2000 ms ago. *)
Lemma stale_calls_witness :
  let w := at_start (entry "v1" "1699999998000") today in
  let w' := repeatedly 2 (staleWhileRevalidate text (KeyString "user") fetch_v2) w in
  calls (since w w') = 2%nat /\ length (spawned w w') = 2%nat.
Proof.
  intros w w'.
  destruct (stale_calls_each_call_the_producer text (KeyString "user")
              fetch_v2 2 w) as (Hc & _ & _ & Hsp).
  - reflexivity.
  - intros i Hi. destruct i as [|[|i]]; [by split..|lia].
  - split; [exact Hc|exact Hsp].
Defined.
